(** * DejaVu: a bounded "seen before" memory (dejavu.go)

    A shallow embedding of the deterministic DejaVu implementation: a ring
    buffer of sha256 digests, a map from digest to the slot of its newest
    occurrence, and a mutex around the check-and-insert.

    Go values are modelled as follows.
    - [int] is a 64-bit signed integer: a [Z] with the wrap-around of [+]
      written out ([int_add]); [%] is the truncated remainder and panics
      on a zero divisor ([int_rem]).
    - [[sha256.Size]byte] is a list of bytes; every digest built by Go has
      length 32 ([wf_digest]), its zero value is 32 zero bytes.
    - a slice is a list; indexing is bounds-checked and panics out of range.
    - [map[K]int] is a [gmap]; reading a missing key yields 0.
    - [uint] is an [N]; the arguments Go cannot represent are refused by
      [make] with the others that exceed [int].
    - a run-time panic, or a [Lock] that can never be granted, ends the
      call: calls return an [outcome]. *)

From stdpp Require Import gmap list.
From Stdlib Require Import ZArith Lia.
From Stdlib.Strings Require Import Byte.

Local Open Scope Z_scope.

(** ** Go run time *)

Inductive runtime_error : Set :=
| IndexOutOfRange
| DivideByZero
| MakeSliceLenOutOfRange.

Inductive outcome (A : Type) : Type :=
| Ok (a : A)
| Panic (e : runtime_error)
| Blocked.
Arguments Ok {A} a.
Arguments Panic {A} e.
Arguments Blocked {A}.

#[global] Instance outcome_ret : MRet outcome := @Ok.
#[global] Instance outcome_bind : MBind outcome := fun A B k m =>
  match m with
  | Ok a => k a
  | Panic e => Panic e
  | Blocked => Blocked
  end.

#[global] Instance outcome_fmap : FMap outcome := fun A B g m =>
  match m with
  | Ok a => Ok (g a)
  | Panic e => Panic e
  | Blocked => Blocked
  end.

Definition max_int : Z := 2 ^ 63 - 1.

Definition wrap_int (z : Z) : Z := (z + 2 ^ 63) mod 2 ^ 64 - 2 ^ 63.

Definition int_add (a b : Z) : Z := wrap_int (a + b).

Definition int_rem (a b : Z) : outcome Z :=
  if decide (b = 0) then Panic DivideByZero else Ok (Z.rem a b).

(** [len(s)] *)
Definition len {A} (s : list A) : Z := Z.of_nat (length s).

Definition in_range {A} (s : list A) (i : Z) : bool :=
  bool_decide (0 ≤ i < len s).

(** [s[i]] as an expression *)
Definition slice_get {A} (s : list A) (i : Z) : outcome A :=
  if in_range s i then
    match s !! Z.to_nat i with
    | Some x => Ok x
    | None => Panic IndexOutOfRange
    end
  else Panic IndexOutOfRange.

(** [s[i] = x] *)
Definition slice_set {A} (s : list A) (i : Z) (x : A) : outcome (list A) :=
  if in_range s i then Ok (<[Z.to_nat i := x]> s) else Panic IndexOutOfRange.

(** ** Digests *)

#[global] Instance byte_eq_dec : EqDecision byte.
Proof.
  intros x y. destruct (decide (to_N x = to_N y)) as [E | E].
  - left. apply (f_equal of_N) in E. rewrite !of_to_N in E. congruence.
  - right. congruence.
Defined.

#[global] Instance byte_countable : Countable byte :=
  inj_countable to_N of_N of_to_N.

Abbreviation Digest := (list byte).

Definition sha256_Size : nat := 32.

Definition wf_digest (f : Digest) : Prop := length f = sha256_Size.

(** The zero value of [[sha256.Size]byte]. *)
Definition zero_digest : Digest := replicate sha256_Size x00.

(** [m[k]] as an expression: the zero value when [k] is missing. *)
Definition map_get (m : gmap Digest Z) (k : Digest) : Z := default 0 (m !! k).

(** [_, ok := m[k]] *)
Definition map_has (m : gmap Digest Z) (k : Digest) : bool :=
  bool_decide (is_Some (m !! k)).

(** ** The deterministic implementation *)

Record deterministic : Type := {
  buffer : list Digest;      (* ring buffer *)
  size : Z;                  (* ring buffer size *)
  index : Z;                 (* current ring buffer index *)
  lookup : gmap Digest Z;    (* digest -> newest index *)
  mutex : bool               (* true while the mutex is held *)
}.

Definition set_buffer (b : list Digest) (d : deterministic) : deterministic :=
  {| buffer := b; size := size d; index := index d; lookup := lookup d;
     mutex := mutex d |}.
Definition set_index (i : Z) (d : deterministic) : deterministic :=
  {| buffer := buffer d; size := size d; index := i; lookup := lookup d;
     mutex := mutex d |}.
Definition set_lookup (m : gmap Digest Z) (d : deterministic) : deterministic :=
  {| buffer := buffer d; size := size d; index := index d; lookup := m;
     mutex := mutex d |}.
Definition set_mutex (b : bool) (d : deterministic) : deterministic :=
  {| buffer := buffer d; size := size d; index := index d; lookup := lookup d;
     mutex := b |}.

(** [make([][sha256.Size]byte, n)] for [n] of type [uint]: the length must
    be representable as an [int]; the slice is filled with zero values.
    (The allocator's own, platform dependent limit is not modelled.) *)
Definition make_slice (n : N) : outcome (list Digest) :=
  if decide (Z.of_N n ≤ max_int) then Ok (replicate (N.to_nat n) zero_digest)
  else Panic MakeSliceLenOutOfRange.

(** [int(n)] for [n] of type [uint] *)
Definition int_of_uint (n : N) : Z := wrap_int (Z.of_N n).

Definition NewDejaVuDeterministic (entrieLimit : N) : outcome deterministic :=
  buf ← make_slice entrieLimit;
  mret {| buffer := buf;
          size := int_of_uint entrieLimit;
          index := 0;
          lookup := ∅;
          mutex := false |}.

(** [d.mutex.Lock()]: granted only while the mutex is free. *)
Definition Lock (d : deterministic) : outcome deterministic :=
  if mutex d then Blocked else Ok (set_mutex true d).

Definition Unlock (d : deterministic) : deterministic := set_mutex false d.

(** The condition of the [if] of line 50, [maxed && (d.lookup[d.buffer[d.index]] == d.index)];
    [&&] evaluates its right operand only when [maxed] holds. *)
Definition prune_cond (d : deterministic) : outcome bool :=
  let maxed := bool_decide (len (buffer d) = size d) in
  if maxed then
    old ← slice_get (buffer d) (index d);
    mret (bool_decide (map_get (lookup d) old = index d))
  else mret false.

(** Lines 49-52: remove the lookup key of the slot about to be overwritten
    when it has no newer entry. *)
Definition prune (d : deterministic) : outcome deterministic :=
  c ← prune_cond d;
  if c : bool then
    old ← slice_get (buffer d) (index d);
    mret (set_lookup (delete old (lookup d)) d)
  else mret d.

(** Line 55, [d.buffer[d.index] = dataDigest]. *)
Definition write_buffer (dataDigest : Digest) (d : deterministic)
  : outcome deterministic :=
  buf ← slice_set (buffer d) (index d) dataDigest;
  mret (set_buffer buf d).

(** Line 56, [d.lookup[dataDigest] = d.index]. *)
Definition write_lookup (dataDigest : Digest) (d : deterministic) : deterministic :=
  set_lookup (<[dataDigest := index d]> (lookup d)) d.

(** Line 57, [d.index = (d.index + 1) % d.size]. *)
Definition advance_index (d : deterministic) : outcome deterministic :=
  i ← int_rem (int_add (index d) 1) (size d);
  mret (set_index i d).

Definition WitnessDigest (d : deterministic) (dataDigest : Digest)
  : outcome (bool * deterministic) :=
  d ← Lock d;
  let familiar := map_has (lookup d) dataDigest in
  d ← prune d;
  d ← write_buffer dataDigest d;
  let d := write_lookup dataDigest d in
  d ← advance_index d;
  let d := Unlock d in
  mret (familiar, d).

(** A sequence of [WitnessDigest] calls on one instance, with the list of
    their results. *)
Fixpoint witness_all (d : deterministic) (calls : list Digest)
  : outcome (list bool * deterministic) :=
  match calls with
  | [] => mret ([], d)
  | f :: rest =>
      '(b, d) ← WitnessDigest d f;
      '(bs, d) ← witness_all d rest;
      mret (b :: bs, d)
  end.

Definition results (d : deterministic) (calls : list Digest) : outcome (list bool) :=
  fst <$> witness_all d calls.

Section Hash.

(** [sha256.Sum256], from Go's standard library. *)
Variable Sum256 : list byte → Digest.

Definition Witness (d : deterministic) (data : list byte)
  : outcome (bool * deterministic) :=
  WitnessDigest d (Sum256 data).

(** A sequence of [Witness] calls on one instance. *)
Fixpoint Witness_all (d : deterministic) (datas : list (list byte))
  : outcome (list bool * deterministic) :=
  match datas with
  | [] => mret ([], d)
  | data :: rest =>
      '(b, d) ← Witness d data;
      '(bs, d) ← Witness_all d rest;
      mret (b :: bs, d)
  end.

End Hash.

(** The states an instance built with limit [n] can be in between calls. *)
Inductive reachable (n : N) : deterministic → Prop :=
| reach_new d :
    NewDejaVuDeterministic n = Ok d → reachable n d
| reach_witness d f b d' :
    reachable n d → WitnessDigest d f = Ok (b, d') → reachable n d'.

(** The instance a successful construction returns. *)
Definition fresh (n : N) : deterministic :=
  {| buffer := replicate (N.to_nat n) zero_digest; size := Z.of_N n;
     index := 0; lookup := ∅; mutex := false |}.

(** A digest that differs from the zero digest in its first byte only. *)
Definition digest_of_byte (b : byte) : Digest := b :: replicate 31 x00.

Definition sample1 : Digest := digest_of_byte x01.
Definition sample2 : Digest := digest_of_byte x02.
Definition sample3 : Digest := digest_of_byte x03.

(** An instance of capacity 2 that has witnessed [sample1]. *)
Definition after_one : deterministic :=
  match WitnessDigest (fresh 2) sample1 with
  | Ok (_, d) => d
  | _ => fresh 2
  end.

(** A state no call sequence leads to: the second slot holds a fingerprint
    the lookup map does not know. Its one lookup entry is sound and sits
    under the cursor, so that the next call prunes it. *)
Definition unreached : deterministic :=
  {| buffer := [sample1; sample2]; size := 2; index := 0;
     lookup := {[sample1 := 0]}; mutex := false |}.

Definition after_unreached : deterministic :=
  match WitnessDigest unreached sample3 with
  | Ok (_, d) => d
  | _ => unreached
  end.

(** ** Concurrent callers

    Each caller runs one [WitnessDigest] call on the shared instance, one
    statement at a time; the scheduler picks any caller that can move. A
    caller waiting in [Lock] cannot move while the mutex is held. *)

Inductive pc : Set :=
| AtLock                        (* line 45 *)
| AtCheck                       (* line 46 *)
| AtPrune (familiar : bool)     (* lines 49-52 *)
| AtBuffer (familiar : bool)    (* line 55 *)
| AtLookup (familiar : bool)    (* line 56 *)
| AtIndex (familiar : bool)     (* line 57 *)
| AtUnlock (familiar : bool)    (* line 59 *)
| Returned (familiar : bool)    (* line 60 *)
| Panicked (e : runtime_error).

Definition in_critical (p : pc) : bool :=
  match p with
  | AtLock | Returned _ | Panicked _ => false
  | _ => true
  end.

(** The move of a statement that may panic or block. *)
Definition move (d : deterministic) (r : outcome deterministic) (next : pc)
  : option (deterministic * pc) :=
  match r with
  | Ok d' => Some (d', next)
  | Panic e => Some (d, Panicked e)
  | Blocked => None
  end.

(** One statement of the call [WitnessDigest(f)]. *)
Definition thread_step (f : Digest) (d : deterministic) (p : pc)
  : option (deterministic * pc) :=
  match p with
  | AtLock => move d (Lock d) AtCheck
  | AtCheck => Some (d, AtPrune (map_has (lookup d) f))
  | AtPrune b => move d (prune d) (AtBuffer b)
  | AtBuffer b => move d (write_buffer f d) (AtLookup b)
  | AtLookup b => Some (write_lookup f d, AtIndex b)
  | AtIndex b => move d (advance_index d) (AtUnlock b)
  | AtUnlock b => Some (Unlock d, Returned b)
  | Returned _ | Panicked _ => None
  end.

(** A caller running alone for [k] statements. *)
Fixpoint run_thread (k : nat) (f : Digest) (d : deterministic) (p : pc)
  : option (deterministic * pc) :=
  match k with
  | O => Some (d, p)
  | S k => '(d', p') ← thread_step f d p; run_thread k f d' p'
  end.

(** The shared instance and the program counter of each caller; caller [i]
    witnesses the [i]th fingerprint of a fixed list. *)
Record system : Type := {
  shared : deterministic;
  pcs : list pc
}.

Inductive step (fs : list Digest) : system → system → Prop :=
| step_thread σ i f p d' p' :
    fs !! i = Some f → pcs σ !! i = Some p →
    thread_step f (shared σ) p = Some (d', p') →
    step fs σ {| shared := d'; pcs := <[i := p']> (pcs σ) |}.

Definition initial (d : deterministic) (fs : list Digest) : system :=
  {| shared := d; pcs := replicate (length fs) AtLock |}.

(** Statements a caller has left. *)
Definition remaining (p : pc) : nat :=
  match p with
  | AtLock => 7
  | AtCheck => 6
  | AtPrune _ => 5
  | AtBuffer _ => 4
  | AtLookup _ => 3
  | AtIndex _ => 2
  | AtUnlock _ => 1
  | Returned _ | Panicked _ => 0
  end.

(** Statements left in the whole system. *)
Definition total_remaining (σ : system) : nat := sum_list (remaining <$> pcs σ).

Definition sample_callers : list Digest := [sample1; sample2; sample3].

#[global] Instance runtime_error_eq_dec : EqDecision runtime_error.
Proof. solve_decision. Defined.

#[global] Instance pc_eq_dec : EqDecision pc.
Proof. solve_decision. Defined.

(** ** Specification vocabulary *)

(** The retention window: the last [n] fingerprints witnessed, oldest first. *)
Definition window (n : nat) (calls : list Digest) : list Digest :=
  drop (length calls - n) calls.

(** Histories are kept newest first; the age of a fingerprint is the
    position of its newest occurrence. *)
Fixpoint age_of (f : Digest) (hist : list Digest) : option nat :=
  match hist with
  | [] => None
  | g :: hist => if decide (f = g) then Some 0%nat else S <$> age_of f hist
  end.

(** The slot written by the call of age [a], after [k] calls. *)
Definition slot_of (n k a : nat) : nat := ((k - 1 - a) mod n)%nat.

(** What a sequence of calls answers, read off the history alone. *)
Fixpoint spec_results (n : nat) (hist calls : list Digest) : list bool :=
  match calls with
  | [] => []
  | f :: rest => bool_decide (f ∈ take n hist) :: spec_results n (f :: hist) rest
  end.

(** The lookup map the history [hist] stands for, when entries of age
    [bound] and more have been forgotten. *)
Definition lookup_of (n bound : nat) (hist : list Digest) (f : Digest) : option Z :=
  a ← age_of f hist;
  if decide (a < bound)%nat then Some (Z.of_nat (slot_of n (length hist) a)) else None.

(** The state of an instance of capacity [n] that has witnessed [hist]. *)
Record repr (n : nat) (hist : list Digest) (d : deterministic) : Prop := {
  repr_pos : (0 < n)%nat;
  repr_max : Z.of_nat n ≤ max_int;
  repr_size : size d = Z.of_nat n;
  repr_len : length (buffer d) = n;
  repr_index : index d = Z.of_nat (length hist mod n);
  repr_buffer : ∀ a f, (a < n)%nat → hist !! a = Some f →
                buffer d !! slot_of n (length hist) a = Some f;
  repr_unwritten : ∀ i, (length hist ≤ i < n)%nat →
                   buffer d !! i = Some zero_digest;
  repr_lookup : ∀ f, lookup d !! f = lookup_of n n hist f
}.

Definition idle (d : deterministic) : Prop := mutex d = false.

(** Index soundness: every lookup entry points at a slot holding its key. *)
Definition index_sound (d : deterministic) : Prop :=
  ∀ f i, lookup d !! f = Some i → slice_get (buffer d) i = Ok f.

(** The caller holding the mutex, part way through [WitnessDigest d0 f]:
    left alone it returns false and leaves the state the whole call leaves. *)
Definition in_flight (n : nat) (hist : list Digest) (f : Digest)
    (d0 d : deterministic) (p : pc) : Prop :=
  mutex d = true ∧ in_critical p = true ∧
  ∃ k d', run_thread k f d p = Some (d', Returned false) ∧
          WitnessDigest d0 f = Ok (false, d') ∧
          repr n (f :: hist) d' ∧ idle d'.

Definition waiting_or_done (p : pc) : Prop := p = AtLock ∨ p = Returned false.

(** What holds of the system under every interleaving: the calls completed
    so far, in the order [hist] of their critical sections, are a sequential
    run that answered false throughout, and at most one caller is inside. *)
Definition serialized (n : nat) (dnew : deterministic) (fs : list Digest)
    (σ : system) : Prop :=
  ∃ hist d0,
    length (pcs σ) = length fs ∧
    repr n hist d0 ∧ idle d0 ∧
    witness_all dnew (reverse hist) = Ok (replicate (length hist) false, d0) ∧
    NoDup hist ∧
    (∀ f, f ∈ hist ↔ ∃ i, fs !! i = Some f ∧ pcs σ !! i = Some (Returned false)) ∧
    ((shared σ = d0 ∧ ∀ i p, pcs σ !! i = Some p → waiting_or_done p) ∨
     (∃ i f p, fs !! i = Some f ∧ pcs σ !! i = Some p ∧
               in_flight n hist f d0 (shared σ) p ∧
               ∀ j q, j ≠ i → pcs σ !! j = Some q → waiting_or_done q)).

(** A completed call: the caller, its fingerprint and its answer. *)
Record completed : Type := {
  caller : nat;
  digest : Digest;
  answer : bool
}.

Definition waiting_or_returned (p : pc) : Prop := p = AtLock ∨ ∃ b, p = Returned b.

(** The caller holding the mutex, part way through [WitnessDigest d0 f]:
    left alone it returns what the whole call returns. *)
Definition holding (f : Digest) (d0 d : deterministic) (p : pc) : Prop :=
  mutex d = true ∧ in_critical p = true ∧
  ∃ k b d', run_thread k f d p = Some (d', Returned b) ∧
            WitnessDigest d0 f = Ok (b, d').

(** What holds of the system under every interleaving, whatever the
    fingerprints: the calls completed so far, in the order [log] of their
    critical sections, are a sequential run with the answers the callers
    got, and at most one caller is inside. *)
Definition linearized (n : N) (dnew : deterministic) (fs : list Digest)
    (σ : system) : Prop :=
  ∃ log d0,
    length (pcs σ) = length fs ∧
    reachable n d0 ∧
    witness_all dnew (digest <$> log) = Ok (answer <$> log, d0) ∧
    NoDup (caller <$> log) ∧
    (∀ e, e ∈ log → fs !! caller e = Some (digest e) ∧
                    pcs σ !! caller e = Some (Returned (answer e))) ∧
    (∀ i b, pcs σ !! i = Some (Returned b) → i ∈ caller <$> log) ∧
    ((shared σ = d0 ∧ ∀ i p, pcs σ !! i = Some p → waiting_or_returned p) ∨
     (∃ i f p, fs !! i = Some f ∧ pcs σ !! i = Some p ∧
               holding f d0 (shared σ) p ∧
               ∀ j q, j ≠ i → pcs σ !! j = Some q → waiting_or_returned q)).

(** The calls of a finished run in the order of their critical sections:
    every caller once, each with its fingerprint and the answer it got. *)
Definition serial_order (fs : list Digest) (σ : system) (log : list completed)
  : Prop :=
  caller <$> log ≡ₚ seq 0 (length fs) ∧
  ∀ e, e ∈ log → fs !! caller e = Some (digest e) ∧
                 pcs σ !! caller e = Some (Returned (answer e)).

(** With capacity 0: nobody has moved, or the one caller that took the
    mutex is on its way to the panic of line 50, the others waiting. *)
Definition doomed (fs : list Digest) (k : nat) (σ : system) : Prop :=
  length (pcs σ) = length fs ∧
  ((k = 0%nat ∧ shared σ = fresh 0 ∧ ∀ i p, pcs σ !! i = Some p → p = AtLock) ∨
   (shared σ = set_mutex true (fresh 0) ∧
    ∃ i, (k = 1%nat ∧ pcs σ !! i = Some AtCheck ∨
          k = 2%nat ∧ pcs σ !! i = Some (AtPrune false) ∨
          k = 3%nat ∧ pcs σ !! i = Some (Panicked IndexOutOfRange)) ∧
         ∀ j q, j ≠ i → pcs σ !! j = Some q → q = AtLock)).

(** * Proofs *)

(** ** Arithmetic of the ring *)

Lemma wrap_int_small (z : Z) : - 2 ^ 63 ≤ z ≤ max_int → wrap_int z = z.
Proof.
  unfold wrap_int, max_int. intros Hz.
  rewrite Z.mod_small; lia.
Qed.

Lemma mod_add_eq (n j c : nat) :
  (0 < c ≤ n)%nat → ((j + c) mod n = j mod n ↔ c = n)%nat.
Proof.
  intros Hc. split.
  - intros E. destruct (decide (c = n)) as [|Hne]; [done|]. exfalso.
    assert (Hn : (n ≠ 0)%nat) by lia.
    pose proof (Nat.mod_upper_bound j n Hn) as Hr.
    rewrite <- Nat.Div0.add_mod_idemp_l in E.
    destruct (decide (j mod n + c < n)%nat) as [Hlt|Hge].
    + rewrite (Nat.mod_small _ _ Hlt) in E. lia.
    + replace (j mod n + c)%nat with ((j mod n + c - n) + 1 * n)%nat in E by lia.
      rewrite Nat.Div0.mod_add, Nat.mod_small in E; lia.
  - intros ->. rewrite <- (Nat.Div0.mod_add j 1 n). f_equal. lia.
Qed.

Lemma slot_of_lt (n k a : nat) : (0 < n)%nat → (slot_of n k a < n)%nat.
Proof. intros. apply Nat.mod_upper_bound. lia. Qed.

Lemma slot_of_newest (n k : nat) : slot_of n (S k) 0 = (k mod n)%nat.
Proof. unfold slot_of. f_equal. lia. Qed.

Lemma slot_of_shift (n k a : nat) : slot_of n (S k) (S a) = slot_of n k a.
Proof. unfold slot_of. f_equal. lia. Qed.

(** Among the calls still in the window, only the oldest one wrote the
    slot under the cursor. *)
Lemma slot_of_oldest (n k a : nat) :
  (a < k)%nat → (a < n)%nat → slot_of n k a = (k mod n)%nat ↔ S a = n.
Proof.
  intros Hk Hn. unfold slot_of.
  replace (k mod n)%nat with (((k - 1 - a) + S a) mod n)%nat by (f_equal; lia).
  rewrite <- (mod_add_eq n (k - 1 - a) (S a)) by lia. split; congruence.
Qed.

Lemma slot_of_written (n k a : nat) :
  (0 < n)%nat → (a < k)%nat → (slot_of n k a < k)%nat.
Proof.
  intros Hn Hk. unfold slot_of.
  destruct (decide (k - 1 - a < n)%nat).
  - rewrite Nat.mod_small; lia.
  - pose proof (Nat.mod_upper_bound (k - 1 - a) n). lia.
Qed.

Lemma rem_succ (n k : nat) :
  (0 < n)%nat → Z.rem (Z.of_nat (k mod n) + 1) (Z.of_nat n) = Z.of_nat (S k mod n).
Proof.
  intros Hn. rewrite Z.rem_mod_nonneg by lia.
  replace (Z.of_nat (k mod n) + 1) with (Z.of_nat (k mod n + 1)) by lia.
  rewrite <- Nat2Z.inj_mod. f_equal.
  rewrite Nat.Div0.add_mod_idemp_l. f_equal. lia.
Qed.

(** ** Ages *)

Lemma age_of_lookup (f : Digest) (hist : list Digest) (a : nat) :
  age_of f hist = Some a → hist !! a = Some f.
Proof.
  revert a. induction hist as [|g hist IH]; intros a; simpl; [done|].
  case_decide as E; [intros [= <-]; by subst|].
  destruct (age_of f hist) as [a'|]; simpl; [|done].
  intros [= <-]. by apply IH.
Qed.

Lemma age_of_lt (f : Digest) (hist : list Digest) (a : nat) :
  age_of f hist = Some a → (a < length hist)%nat.
Proof. intros H. apply age_of_lookup in H. by eapply lookup_lt_Some. Qed.

Lemma age_of_take (n : nat) (f : Digest) (hist : list Digest) :
  f ∈ take n hist ↔ ∃ a, age_of f hist = Some a ∧ (a < n)%nat.
Proof.
  revert n. induction hist as [|g hist IH]; intros n; simpl.
  - rewrite take_nil. split; [by intros ?%elem_of_nil|by intros (? & ? & ?)].
  - destruct n as [|n]; simpl.
    { split; [by intros ?%elem_of_nil|intros (? & ? & ?); lia]. }
    rewrite elem_of_cons, IH. case_decide as E.
    + split; [intros _; exists 0%nat; split; [done|lia]|by left].
    + split.
      * intros [?|(a & -> & Ha)]; [done|]. exists (S a). split; [done|lia].
      * intros (a & Ha & Hlt). right.
        destruct (age_of f hist) as [a'|]; simplify_eq/=.
        exists a'. split; [done|lia].
Qed.

Lemma lookup_of_is_Some (n : nat) (hist : list Digest) (f : Digest) :
  is_Some (lookup_of n n hist f) ↔ f ∈ take n hist.
Proof.
  rewrite age_of_take. unfold lookup_of.
  destruct (age_of f hist) as [a|]; simpl.
  - case_decide.
    + split; [intros _; eauto|intros _; eauto].
    + split; [by intros [? ?]|intros (? & [= <-] & ?); lia].
  - split; [by intros [? ?]|by intros (? & ? & ?)].
Qed.

(** The window of a call sequence is the front of its history. *)
Lemma window_reverse (n : nat) (calls : list Digest) :
  window n calls = reverse (take n (reverse calls)).
Proof. unfold window. by rewrite take_reverse, reverse_involutive. Qed.

Lemma elem_of_window (n : nat) (calls : list Digest) (f : Digest) :
  f ∈ window n calls ↔ f ∈ take n (reverse calls).
Proof. by rewrite window_reverse, elem_of_reverse. Qed.

(** ** Slices *)

Lemma slice_get_nat {A} (s : list A) (k : nat) (x : A) :
  s !! k = Some x → slice_get s (Z.of_nat k) = Ok x.
Proof.
  intros H. unfold slice_get, in_range, len.
  pose proof (lookup_lt_Some _ _ _ H).
  rewrite bool_decide_eq_true_2 by lia. by rewrite Nat2Z.id, H.
Qed.

Lemma slice_get_Ok {A} (s : list A) (i : Z) (x : A) :
  slice_get s i = Ok x ↔ 0 ≤ i ∧ s !! Z.to_nat i = Some x.
Proof.
  unfold slice_get, in_range, len. case_bool_decide as Hr.
  - destruct (s !! Z.to_nat i) eqn:E.
    + split; [intros [= ->]; split; [lia|done]|by intros [_ [= ->]]].
    + split; [done|by intros [_ ?]].
  - split; [done|]. intros [? H%lookup_lt_Some]. lia.
Qed.

Lemma slice_set_nat {A} (s : list A) (k : nat) (x : A) :
  (k < length s)%nat → slice_set s (Z.of_nat k) x = Ok (<[k := x]> s).
Proof.
  intros H. unfold slice_set, in_range, len.
  rewrite bool_decide_eq_true_2 by lia. by rewrite Nat2Z.id.
Qed.

(** ** One call, step by step *)

Section Step.

Variables (n : nat) (hist : list Digest) (d : deterministic).
Hypothesis Hrepr : repr n hist d.

Local Abbreviation k := (length hist).
Local Abbreviation cur := (length hist mod n)%nat.

Lemma cursor_lt : (cur < n)%nat.
Proof. apply Nat.mod_upper_bound. pose proof (repr_pos _ _ _ Hrepr). lia. Qed.

Lemma cursor_slot : ∃ old, buffer d !! cur = Some old.
Proof.
  apply lookup_lt_is_Some. rewrite (repr_len _ _ _ Hrepr). apply cursor_lt.
Qed.

(** The one entry that can leave the window is the one of age [n - 1];
    it sits in the slot under the cursor. *)
Lemma oldest_under_cursor (f : Digest) (a : nat) :
  age_of f hist = Some a → S a = n → buffer d !! cur = Some f.
Proof.
  intros Ha Hn. pose proof (age_of_lt _ _ _ Ha) as Hk.
  apply age_of_lookup in Ha.
  rewrite <- (proj2 (slot_of_oldest n k a Hk ltac:(lia)) Hn).
  apply (repr_buffer _ _ _ Hrepr); [lia|done].
Qed.

Lemma prune_cond_repr (old : Digest) :
  buffer d !! cur = Some old →
  prune_cond d = Ok (bool_decide (map_get (lookup d) old = Z.of_nat cur)).
Proof.
  intros Hold. unfold prune_cond.
  rewrite bool_decide_eq_true_2
    by (unfold len; by rewrite (repr_len _ _ _ Hrepr), (repr_size _ _ _ Hrepr)).
  rewrite (repr_index _ _ _ Hrepr).
  by rewrite (slice_get_nat _ _ _ Hold).
Qed.

(** After the pruning step the map holds the entries of age below [n - 1]. *)
Lemma prune_repr :
  ∃ m, prune d = Ok (set_lookup m d) ∧ ∀ f, m !! f = lookup_of n (n - 1) hist f.
Proof.
  destruct cursor_slot as [old Hold].
  unfold prune. rewrite (prune_cond_repr old Hold). simpl.
  pose proof (repr_lookup _ _ _ Hrepr) as Hlk.
  assert (Hsame : ∀ f, f ≠ old → lookup_of n n hist f = lookup_of n (n - 1) hist f).
  { intros f Hne. unfold lookup_of.
    destruct (age_of f hist) as [a|] eqn:Ha; simpl; [|done].
    repeat case_decide; try done; try lia.
    assert (S a = n) as Hn by lia.
    pose proof (oldest_under_cursor f a Ha Hn). congruence. }
  case_bool_decide as Hc.
  - rewrite (repr_index _ _ _ Hrepr).
    rewrite (slice_get_nat _ _ _ Hold). simpl.
    eexists. split; [done|]. intros f.
    destruct (decide (f = old)) as [->|Hne].
    + rewrite lookup_delete_eq. unfold lookup_of.
      destruct (age_of old hist) as [a|] eqn:Ha; simpl; [|done].
      case_decide as Hlt; [|done]. exfalso.
      unfold map_get in Hc. rewrite Hlk in Hc. unfold lookup_of in Hc.
      rewrite Ha in Hc. simpl in Hc.
      rewrite decide_True in Hc by lia. simpl in Hc.
      apply Nat2Z.inj in Hc.
      apply slot_of_oldest in Hc; [lia|by eapply age_of_lt|lia].
    + rewrite lookup_delete_ne by done. rewrite Hlk. by apply Hsame.
  - exists (lookup d). split; [by destruct d|]. intros f.
    destruct (decide (f = old)) as [->|Hne]; [|rewrite Hlk; by apply Hsame].
    rewrite Hlk. unfold lookup_of.
    destruct (age_of old hist) as [a|] eqn:Ha; simpl; [|done].
    repeat case_decide; try done; try lia.
    exfalso. apply Hc. unfold map_get. rewrite Hlk. unfold lookup_of.
    rewrite Ha. simpl. rewrite decide_True by lia. simpl. f_equal.
    apply slot_of_oldest; [by eapply age_of_lt|lia|lia].
Qed.

End Step.

Lemma repr_set_mutex (n : nat) (hist : list Digest) (d : deterministic) (b : bool) :
  repr n hist d → repr n hist (set_mutex b d).
Proof. intros []. by constructor. Qed.

(** A call on an idle instance that stands for [hist]: it answers whether
    the fingerprint is among the last [n] of [hist], writes the slot under
    the cursor and leaves an idle instance that stands for [f :: hist]. *)
Lemma WitnessDigest_repr (n : nat) (hist : list Digest) (d : deterministic) (f : Digest) :
  repr n hist d → idle d →
  ∃ d', WitnessDigest d f = Ok (bool_decide (f ∈ take n hist), d')
      ∧ repr n (f :: hist) d' ∧ idle d'
      ∧ buffer d' = <[(length hist mod n)%nat := f]> (buffer d)
      ∧ lookup d' = <[f := index d]> (lookup d')
      ∧ (∀ g, g ≠ f → lookup d' !! g = lookup_of n (n - 1) hist g).
Proof.
  intros Hrepr Hidle. unfold WitnessDigest, Lock. rewrite Hidle. simpl.
  pose proof (repr_set_mutex n hist d true Hrepr) as Hl.
  destruct (prune_repr n hist _ Hl) as (m & -> & Hm). simpl.
  pose proof (repr_pos _ _ _ Hrepr) as Hpos.
  pose proof (repr_max _ _ _ Hrepr) as Hmax.
  pose proof (cursor_lt n hist d Hrepr) as Hcur.
  unfold write_buffer, advance_index, write_lookup. simpl.
  rewrite (repr_index _ _ _ Hrepr).
  rewrite slice_set_nat by (by rewrite (repr_len _ _ _ Hrepr)). simpl.
  rewrite (repr_index _ _ _ Hrepr), (repr_size _ _ _ Hrepr).
  unfold int_add, int_rem. rewrite wrap_int_small by (unfold max_int in *; lia).
  rewrite decide_False by lia. simpl. rewrite rem_succ by done.
  assert (map_has (lookup d) f = bool_decide (f ∈ take n hist)) as ->.
  { apply bool_decide_ext.
    rewrite (repr_lookup _ _ _ Hrepr). apply lookup_of_is_Some. }
  eexists. split; [reflexivity|].
  split; [|split; [done|split; [done|split]]].
  - constructor; simpl; try done.
    + apply (repr_size _ _ _ Hrepr).
    + by rewrite length_insert, (repr_len _ _ _ Hrepr).
    + intros [|a] g Ha Hg; simpl in Hg.
      * injection Hg as ->. rewrite slot_of_newest.
        apply list_lookup_insert_eq. by rewrite (repr_len _ _ _ Hrepr).
      * rewrite slot_of_shift.
        pose proof (lookup_lt_Some _ _ _ Hg) as Hk.
        rewrite list_lookup_insert_ne.
        { apply (repr_buffer _ _ _ Hrepr); [lia|done]. }
        intros E. symmetry in E. apply slot_of_oldest in E; lia.
    + intros i Hi. rewrite list_lookup_insert_ne.
      { apply (repr_unwritten _ _ _ Hrepr). lia. }
      rewrite Nat.mod_small; lia.
    + intros g. unfold lookup_of. simpl. case_decide as E.
      * subst g. rewrite lookup_insert_eq. simpl.
        rewrite decide_True by lia. by rewrite slot_of_newest.
      * rewrite lookup_insert_ne by done. rewrite Hm. unfold lookup_of.
        destruct (age_of g hist) as [a|]; simpl; [|done].
        rewrite slot_of_shift. repeat case_decide; try done; lia.
  - simpl. by rewrite insert_insert_eq.
  - intros g Hg. simpl. rewrite lookup_insert_ne by done. apply Hm.
Qed.

(** ** Construction and call sequences *)

Lemma NewDejaVuDeterministic_Ok (n : N) (d : deterministic) :
  NewDejaVuDeterministic n = Ok d ↔
  Z.of_N n ≤ max_int ∧
  d = {| buffer := replicate (N.to_nat n) zero_digest; size := Z.of_N n;
         index := 0; lookup := ∅; mutex := false |}.
Proof.
  unfold NewDejaVuDeterministic, make_slice, int_of_uint.
  case_decide as Hn; simpl.
  - rewrite wrap_int_small by (unfold max_int in *; lia).
    split; [by intros [= <-]|by intros [_ ->]].
  - split; [done|by intros [? _]].
Qed.

Lemma repr_new (n : N) (d : deterministic) :
  (1 ≤ n)%N → NewDejaVuDeterministic n = Ok d → repr (N.to_nat n) [] d ∧ idle d.
Proof.
  intros Hn [Hmax ->]%NewDejaVuDeterministic_Ok. split; [|done].
  constructor; simpl.
  - lia.
  - lia.
  - lia.
  - apply length_replicate.
  - by rewrite Nat.Div0.mod_0_l.
  - intros a f _ Ha. by rewrite lookup_nil in Ha.
  - intros i Hi. apply lookup_replicate_2. lia.
  - intros f. apply lookup_empty.
Qed.

Lemma witness_all_repr (n : nat) (calls hist : list Digest) (d : deterministic) :
  repr n hist d → idle d →
  ∃ d', witness_all d calls = Ok (spec_results n hist calls, d')
      ∧ repr n (reverse calls ++ hist) d' ∧ idle d'.
Proof.
  revert hist d. induction calls as [|f calls IH]; intros hist d Hrepr Hidle.
  - exists d. by rewrite reverse_nil.
  - destruct (WitnessDigest_repr n hist d f Hrepr Hidle)
      as (d1 & Hw & Hrepr1 & Hidle1 & _).
    destruct (IH _ _ Hrepr1 Hidle1) as (d2 & Hall & Hrepr2 & Hidle2).
    exists d2. simpl. rewrite Hw. simpl. rewrite Hall. simpl.
    split; [done|]. split; [|done].
    by rewrite reverse_cons, <- app_assoc.
Qed.

Lemma reachable_repr (n : N) (d : deterministic) :
  (1 ≤ n)%N → reachable n d → ∃ hist, repr (N.to_nat n) hist d ∧ idle d.
Proof.
  intros Hn. induction 1 as [d Hnew|d f b d' _ (hist & Hrepr & Hidle) Hw].
  - exists []. by apply repr_new.
  - destruct (WitnessDigest_repr _ hist d f Hrepr Hidle)
      as (d1 & Hw1 & Hrepr1 & Hidle1 & _).
    exists (f :: hist). rewrite Hw in Hw1. by injection Hw1 as -> ->.
Qed.

(** Every state a call sequence leads to is reachable. *)
Lemma witness_all_reachable (n : N) (calls : list Digest) (d d' : deterministic)
    (bs : list bool) :
  reachable n d → witness_all d calls = Ok (bs, d') → reachable n d'.
Proof.
  revert d bs. induction calls as [|f calls IH]; intros d bs Hd; simpl.
  - by intros [= _ <-].
  - destruct (WitnessDigest d f) as [[b d1]| |] eqn:Hw; simpl; [|done..].
    destruct (witness_all d1 calls) as [[bs1 d2]| |] eqn:Hall; simpl; [|done..].
    intros [= _ <-]. eapply IH; [|done]. by eapply reach_witness.
Qed.

Lemma repr_index_sound (n : nat) (hist : list Digest) (d : deterministic) :
  repr n hist d → index_sound d.
Proof.
  intros Hrepr f i. rewrite (repr_lookup _ _ _ Hrepr). unfold lookup_of.
  destruct (age_of f hist) as [a|] eqn:Ha; simpl; [|done].
  case_decide; [|done]. intros [= <-]. apply slice_get_nat.
  apply (repr_buffer _ _ _ Hrepr); [done|]. by apply age_of_lookup.
Qed.

(** ** The window and the ring store *)

Lemma slot_of_surj (n k i : nat) :
  (i < n)%nat → (i < k)%nat →
  ∃ a, (a < n)%nat ∧ (a < k)%nat ∧ slot_of n k a = i.
Proof.
  intros Hn Hk. set (j := (k - 1 - i)%nat).
  assert (n ≠ 0)%nat as Hn0 by lia.
  pose proof (Nat.mod_upper_bound j n Hn0) as Hlt.
  pose proof (Nat.Div0.mod_le j n) as Hle.
  pose proof (Nat.div_mod_eq j n) as Hj.
  exists (j mod n)%nat. split; [done|]. split; [lia|].
  unfold slot_of.
  replace (k - 1 - j mod n)%nat with (i + (j / n) * n)%nat by lia.
  rewrite Nat.Div0.mod_add. by apply Nat.mod_small.
Qed.

(** The fingerprints of the window are those held by the written slots. *)
Lemma window_ring (n : nat) (hist : list Digest) (d : deterministic) (f : Digest) :
  repr n hist d →
  f ∈ take n hist ↔ ∃ i, (i < length hist)%nat ∧ buffer d !! i = Some f.
Proof.
  intros Hrepr. pose proof (repr_pos _ _ _ Hrepr) as Hpos. split.
  - intros (a & Ha & Hlt)%age_of_take.
    pose proof (age_of_lt _ _ _ Ha) as Hk. apply age_of_lookup in Ha.
    exists (slot_of n (length hist) a). split; [by apply slot_of_written|].
    by apply (repr_buffer _ _ _ Hrepr).
  - intros (i & Hk & Hi).
    assert (i < n)%nat as Hn
      by (rewrite <- (repr_len _ _ _ Hrepr); by eapply lookup_lt_Some).
    destruct (slot_of_surj n (length hist) i Hn Hk) as (a & Han & Hak & Hs).
    destruct (lookup_lt_is_Some_2 hist a Hak) as [g Hg].
    pose proof (repr_buffer _ _ _ Hrepr a g Han Hg) as Hb.
    rewrite Hs, Hi in Hb. injection Hb as <-.
    apply list_elem_of_lookup. exists a. rewrite lookup_take_lt; done.
Qed.

(** X13. The pruning step is what keeps the index sound: on any instance
    whose buffer has its declared size, reachable or not, a call that
    returns leaves a sound index if it found one. *)
Lemma WitnessDigest_preserves_sound (d d' : deterministic) (f : Digest) (b : bool) :
  len (buffer d) = size d → index_sound d →
  WitnessDigest d f = Ok (b, d') → index_sound d'.
Proof.
  intros Hlen Hsound. unfold WitnessDigest, Lock.
  destruct (mutex d); [done|]. simpl.
  unfold prune, prune_cond. simpl. rewrite bool_decide_eq_true_2 by done.
  destruct (slice_get (buffer d) (index d)) as [old| |] eqn:Hold; simpl; [|done..].
  assert (∀ m : gmap Digest Z,
    (∀ g j, m !! g = Some j → j ≠ index d ∧ lookup d !! g = Some j) →
    write_buffer f (set_lookup m (set_mutex true d)) ≫= (λ d1,
      advance_index (write_lookup f d1) ≫= (λ d2,
      mret (map_has (lookup d) f, Unlock d2)))
      = Ok (b, d') → index_sound d') as Hadd.
  { intros m Hm. unfold write_buffer, advance_index, write_lookup, slice_set. simpl.
    unfold in_range. case_bool_decide as Hr; simpl; [|done].
    destruct (int_rem _ _) as [i| |]; simpl; [|done..].
    intros [= _ <-] g j. simpl.
    destruct (decide (g = f)) as [->|Hne].
    - rewrite lookup_insert_eq. intros [= <-].
      apply slice_get_Ok. split; [lia|].
      apply list_lookup_insert_eq. unfold len in Hr. lia.
    - rewrite lookup_insert_ne by done. intros [Hj Hg]%Hm.
      apply Hsound, slice_get_Ok in Hg as [Hj0 Hg].
      apply slice_get_Ok. split; [done|].
      rewrite list_lookup_insert_ne; [done|]. lia. }
  case_bool_decide as Hc; simpl.
  - apply Hadd. intros g j Hg.
    apply lookup_delete_Some in Hg as [Hne Hg]. split; [|done].
    intros ->. apply Hsound in Hg. congruence.
  - apply Hadd. intros g j Hg. split; [|done].
    intros ->. pose proof (Hsound _ _ Hg) as Hg'.
    rewrite Hold in Hg'. injection Hg' as ->.
    apply Hc. unfold map_get. by rewrite Hg.
Qed.

Lemma lookup_of_initial_fill (n : nat) (hist : list Digest) (f : Digest) :
  (length hist < n)%nat → lookup_of n (n - 1) hist f = lookup_of n n hist f.
Proof.
  intros Hk. unfold lookup_of.
  destruct (age_of f hist) as [a|] eqn:Ha; simpl; [|done].
  apply age_of_lt in Ha. rewrite !decide_True by lia. done.
Qed.

(** Membership in lists built from [::], [++] and [reverse]. *)
Ltac list_mem :=
  repeat (first
    [ progress rewrite not_elem_of_cons in *
    | progress rewrite elem_of_cons in *
    | progress rewrite elem_of_app in *
    | progress rewrite elem_of_reverse in *
    | progress rewrite elem_of_nil in * ]);
  intuition congruence.

(** ** Answers read off the history *)

Lemma results_repr (n : nat) (hist calls : list Digest) (d : deterministic) :
  repr n hist d → idle d → results d calls = Ok (spec_results n hist calls).
Proof.
  intros Hrepr Hidle.
  destruct (witness_all_repr n calls hist d Hrepr Hidle) as (d' & Hall & _).
  unfold results. by rewrite Hall.
Qed.

Lemma spec_results_app (n : nat) (hist c1 c2 : list Digest) :
  spec_results n hist (c1 ++ c2)
  = spec_results n hist c1 ++ spec_results n (reverse c1 ++ hist) c2.
Proof.
  revert hist. induction c1 as [|f c1 IH]; intros hist; simpl; [done|].
  by rewrite IH, reverse_cons, <- app_assoc.
Qed.

(** First sight: fingerprints that are pairwise distinct and not in the
    window are all unfamiliar. *)
Lemma spec_results_first_sight (n : nat) (hist calls : list Digest) :
  NoDup calls → (∀ f, f ∈ calls → f ∉ take n hist) →
  spec_results n hist calls = replicate (length calls) false.
Proof.
  revert hist. induction calls as [|f calls IH]; intros hist Hnd Hout; simpl; [done|].
  apply NoDup_cons in Hnd as [Hf Hnd].
  rewrite bool_decide_eq_false_2 by (apply Hout; by left).
  f_equal. apply IH; [done|]. intros g Hg.
  rewrite elem_of_take. intros (i & Hi & Hlt).
  destruct i as [|i]; simpl in Hi; [by injection Hi as ->|].
  apply (Hout g); [by right|]. apply elem_of_take. exists i. split; [done|lia].
Qed.

Lemma elem_of_take_app_length {A} (l k : list A) (n : nat) (x : A) :
  n = length l → x ∈ take n (l ++ k) ↔ x ∈ l.
Proof. intros ->. by rewrite take_app_length. Qed.

(** Replay: witnessing again, oldest first, what fills the window finds
    every fingerprint familiar. *)
Lemma spec_results_replay (n : nat) (pre rest h : list Digest) :
  (length pre + length rest)%nat = n →
  spec_results n (pre ++ reverse rest ++ h) rest = replicate (length rest) true.
Proof.
  revert pre h. induction rest as [|f rest IH]; intros pre h Hn; simpl; [done|].
  rewrite reverse_cons, <- !app_assoc. f_equal.
  - apply bool_decide_eq_true. apply elem_of_take.
    exists (length pre + length rest)%nat. split; [|simpl in Hn; lia].
    rewrite lookup_app_r by lia. rewrite Nat.add_comm, Nat.add_sub.
    rewrite <- (length_reverse rest). by apply list_lookup_middle.
  - rewrite (app_comm_cons pre). apply IH. simpl in *. lia.
Qed.

(** Cascade: witnessing again, oldest first, the fingerprint that has just
    left the window evicts the next one, which is then unfamiliar too. *)
Lemma spec_results_cascade (n : nat) (pre rest h : list Digest) :
  (length pre + length rest)%nat = S n → NoDup (pre ++ rest) →
  spec_results n (pre ++ reverse rest ++ h) rest = replicate (length rest) false.
Proof.
  revert pre h. induction rest as [|f rest IH]; intros pre h Hn Hnd; simpl; [done|].
  rewrite reverse_cons, <- !app_assoc. f_equal.
  - apply bool_decide_eq_false. rewrite app_assoc.
    rewrite elem_of_take_app_length
      by (rewrite length_app, length_reverse; simpl in Hn; lia).
    apply NoDup_app in Hnd as (_ & Hpre & [Hf _]%NoDup_cons).
    rewrite elem_of_app, elem_of_reverse. intros [Hin|Hin]; [|done].
    apply (Hpre _ Hin). by left.
  - rewrite (app_comm_cons pre). apply IH; [simpl in *; lia|].
    simpl. by rewrite Permutation_middle.
Qed.

(** On a fresh instance of any capacity [n], [n + 1] pairwise distinct
    fingerprints witnessed twice over, in the same order, are unfamiliar
    every time. *)
Lemma rewitness_cascade (n : N) (d : deterministic) (ds : list Digest) :
  (1 ≤ n)%N → NewDejaVuDeterministic n = Ok d →
  length ds = S (N.to_nat n) → NoDup ds →
  results d (ds ++ ds) = Ok (replicate (length ds + length ds) false).
Proof.
  intros Hn Hnew Hlen Hnd. destruct (repr_new n d Hn Hnew) as [Hrepr Hidle].
  rewrite (results_repr _ _ _ d Hrepr Hidle), spec_results_app, replicate_add.
  do 2 f_equal.
  - apply spec_results_first_sight; [done|].
    intros ? _. rewrite take_nil. apply not_elem_of_nil.
  - apply (spec_results_cascade _ [] ds []); [done|done].
Qed.

(** ** Callers under the mutex *)

Lemma witness_all_snoc (d d1 d2 : deterministic) (calls : list Digest)
    (bs : list bool) (f : Digest) (b : bool) :
  witness_all d calls = Ok (bs, d1) → WitnessDigest d1 f = Ok (b, d2) →
  witness_all d (calls ++ [f]) = Ok (bs ++ [b], d2).
Proof.
  revert d bs. induction calls as [|g calls IH]; intros d bs; simpl.
  - intros [= <- <-] ->. done.
  - destruct (WitnessDigest d g) as [[b0 d0]| |]; simpl; [|done..].
    destruct (witness_all d0 calls) as [[bs0 d0']| |] eqn:Hall; simpl; [|done..].
    intros [= <- <-] Hw. by rewrite (IH _ _ Hall Hw).
Qed.

(** A caller left alone runs the whole call in seven statements. *)
Lemma WitnessDigest_run_thread (d d' : deterministic) (f : Digest) (b : bool) :
  WitnessDigest d f = Ok (b, d') →
  run_thread 7 f d AtLock = Some (d', Returned b).
Proof.
  unfold WitnessDigest. simpl.
  destruct (Lock d) as [dl| |]; simpl; [|done..].
  destruct (prune dl) as [d1| |]; simpl; [|done..].
  destruct (write_buffer f d1) as [d2| |]; simpl; [|done..].
  destruct (advance_index (write_lookup f d2)) as [d3| |]; simpl; [|done..].
  by intros [= <- <-].
Qed.

Lemma run_thread_Returned (k : nat) (f : Digest) (d d' : deterministic)
    (b : bool) (p : pc) :
  run_thread k f d (Returned b) = Some (d', p) → d' = d ∧ p = Returned b.
Proof. destruct k; simpl; [by intros [= <- <-]|done]. Qed.

Lemma run_thread_Panicked (k : nat) (f : Digest) (d d' : deterministic)
    (e : runtime_error) (b : bool) :
  run_thread k f d (Panicked e) ≠ Some (d', Returned b).
Proof. destruct k; simpl; [by intros [=]|done]. Qed.

Lemma move_Some (d d' : deterministic) (r : outcome deterministic) (next p' : pc) :
  move d r next = Some (d', p') →
  (r = Ok d' ∧ p' = next) ∨ (∃ e, r = Panic e ∧ d' = d ∧ p' = Panicked e).
Proof.
  destruct r as [d1|e|]; simpl.
  - intros [= <- <-]. by left.
  - intros [= <- <-]. right. by exists e.
  - done.
Qed.

Lemma prune_mutex (d d' : deterministic) : prune d = Ok d' → mutex d' = mutex d.
Proof.
  unfold prune. destruct (prune_cond d) as [[]| |]; simpl; [|by intros [= <-]|done..].
  destruct (slice_get _ _); simpl; [|done..]. by intros [= <-].
Qed.

Lemma write_buffer_mutex (f : Digest) (d d' : deterministic) :
  write_buffer f d = Ok d' → mutex d' = mutex d.
Proof.
  unfold write_buffer. destruct (slice_set _ _ _); simpl; [|done..].
  by intros [= <-].
Qed.

Lemma advance_index_mutex (d d' : deterministic) :
  advance_index d = Ok d' → mutex d' = mutex d.
Proof.
  unfold advance_index. destruct (int_rem _ _); simpl; [|done..].
  by intros [= <-].
Qed.

(** A statement inside the critical section keeps the mutex held, unless
    it is the [Unlock] that ends the call, or a panic. *)
Lemma thread_step_critical (f : Digest) (d d' : deterministic) (p p' : pc) :
  in_critical p = true → mutex d = true →
  thread_step f d p = Some (d', p') →
  (in_critical p' = true ∧ mutex d' = true) ∨
  (∃ b, p' = Returned b) ∨ (∃ e, p' = Panicked e).
Proof.
  intros Hp Hm. destruct p; simpl in *; try done.
  - intros [= <- <-]. by left.
  - intros [[Hr ->]|(e & _ & _ & ->)]%move_Some; [left|by eauto].
    by rewrite (prune_mutex _ _ Hr).
  - intros [[Hr ->]|(e & _ & _ & ->)]%move_Some; [left|by eauto].
    by rewrite (write_buffer_mutex _ _ _ Hr).
  - intros [= <- <-]. by left.
  - intros [[Hr ->]|(e & _ & _ & ->)]%move_Some; [left|by eauto].
    by rewrite (advance_index_mutex _ _ Hr).
  - intros [= <- <-]. right. left. by eexists.
Qed.

(** Outside the critical section a caller moves only by taking the mutex. *)
Lemma thread_step_waiting (f : Digest) (d d' : deterministic) (p p' : pc) :
  waiting_or_done p → thread_step f d p = Some (d', p') →
  p = AtLock ∧ mutex d = false ∧ d' = set_mutex true d ∧ p' = AtCheck.
Proof.
  intros [-> | ->]; simpl; [|done]. unfold Lock.
  destruct (mutex d); simpl; [done|]. by intros [= <- <-].
Qed.

Lemma thread_step_remaining (f : Digest) (d d' : deterministic) (p p' : pc) :
  thread_step f d p = Some (d', p') → (remaining p' < remaining p)%nat.
Proof.
  destruct p; simpl; try done;
    try (intros [[_ ->]|(e & _ & _ & ->)]%move_Some; simpl; lia);
    intros [= <- <-]; simpl; lia.
Qed.

Lemma serialized_initial (n : N) (d : deterministic) (fs : list Digest) :
  (1 ≤ n)%N → NewDejaVuDeterministic n = Ok d →
  serialized (N.to_nat n) d fs (initial d fs).
Proof.
  intros Hn Hnew. destruct (repr_new n d Hn Hnew) as [Hrepr Hidle].
  exists [], d. simpl. split; [apply length_replicate|].
  split; [done|]. split; [done|]. split; [done|]. split; [constructor|].
  split.
  - intros f. split; [by intros ?%elem_of_nil|].
    intros (i & _ & [? _]%lookup_replicate). done.
  - left. split; [done|]. intros i p [-> _]%lookup_replicate. by left.
Qed.

Lemma serialized_step (n : nat) (dnew : deterministic) (fs : list Digest)
    (σ σ' : system) :
  NoDup fs → serialized n dnew fs σ → step fs σ σ' → serialized n dnew fs σ'.
Proof.
  intros Hnd Hser Hstep.
  destruct Hstep as [σ i f p d' p' Hf Hp Hstep].
  destruct Hser as (hist & d0 & Hlen & Hrepr & Hidle & Hseq & Hnodup & Hhist & Hcase).
  simpl.
  assert (Hfresh : in_critical p = true ∨ p = AtLock → f ∉ hist).
  { intros Hcrit (j & Hj & Hpj)%Hhist.
    rewrite (NoDup_lookup _ _ _ _ Hnd Hj Hf) in Hpj.
    rewrite Hp in Hpj. injection Hpj as ->. by destruct Hcrit. }
  assert (Hi : (i < length (pcs σ))%nat) by by eapply lookup_lt_Some.
  destruct Hcase as [[Hshared Hall]|(i0 & f0 & p0 & Hf0 & Hp0 & Hfl & Hothers)].
  - (* the mutex is free: the caller takes it *)
    destruct (thread_step_waiting _ _ _ _ _ (Hall _ _ Hp) Hstep)
      as (-> & _ & -> & ->).
    destruct (WitnessDigest_repr n hist d0 f Hrepr Hidle)
      as (d1 & Hw & Hrepr1 & Hidle1 & _).
    rewrite bool_decide_eq_false_2 in Hw.
    2: { intros ?%subseteq_take. by apply Hfresh; [right|]. }
    exists hist, d0. simpl. rewrite length_insert.
    do 5 (split; [done|]). split.
    + intros g. rewrite Hhist. split; intros (j & Hj & Hpj); exists j.
      * rewrite list_lookup_insert_ne; [done|]. intros ->. congruence.
      * destruct (decide (i = j)) as [->|Hne].
        { by rewrite list_lookup_insert_eq in Hpj. }
        by rewrite list_lookup_insert_ne in Hpj.
    + right. exists i, f, AtCheck. split; [done|].
      split; [by apply list_lookup_insert_eq|]. split.
      * split; [by rewrite Hshared|]. split; [done|].
        exists 6%nat, d1. split; [|done].
        apply WitnessDigest_run_thread in Hw. simpl in Hw.
        unfold Lock in Hw. rewrite Hidle in Hw. simpl in Hw.
        by rewrite Hshared.
      * intros j q Hne Hq. rewrite list_lookup_insert_ne in Hq by done.
        by eapply Hall.
  - (* the mutex is held: only its holder can move *)
    destruct Hfl as (Hmutex & Hcrit & k & d1 & Hrun & Hw & Hrepr1 & Hidle1).
    destruct (decide (i = i0)) as [->|Hne].
    2: { destruct (thread_step_waiting _ _ _ _ _ (Hothers _ _ Hne Hp) Hstep)
           as (_ & Hfree & _). congruence. }
    assert (f0 = f) as -> by congruence. assert (p0 = p) as -> by congruence.
    destruct k as [|k]; simpl in Hrun.
    { injection Hrun as _ ->. done. }
    rewrite Hstep in Hrun. simpl in Hrun.
    destruct (thread_step_critical _ _ _ _ _ Hcrit Hmutex Hstep)
      as [[Hcrit' Hmutex']|[[b ->]|[e ->]]].
    + exists hist, d0. simpl. rewrite length_insert.
      do 5 (split; [done|]). split.
      * intros g. rewrite Hhist. split; intros (j & Hj & Hpj); exists j.
        -- rewrite list_lookup_insert_ne; [done|]. intros ->.
           rewrite Hp in Hpj. by injection Hpj as ->.
        -- destruct (decide (i0 = j)) as [->|Hne].
           { rewrite list_lookup_insert_eq in Hpj by done.
             injection Hpj as ->. done. }
           by rewrite list_lookup_insert_ne in Hpj.
      * right. exists i0, f, p'. split; [done|].
        split; [by apply list_lookup_insert_eq|]. split.
        { split; [done|]. split; [done|]. by exists k, d1. }
        intros j q Hne Hq. rewrite list_lookup_insert_ne in Hq by done.
        by eapply Hothers.
    + apply run_thread_Returned in Hrun as [-> [= <-]].
      exists (f :: hist), d'. simpl pcs. simpl shared. rewrite length_insert.
      split; [done|]. split; [done|]. split; [done|]. split.
      { rewrite reverse_cons.
        change (length (f :: hist)) with (S (length hist)).
        rewrite replicate_S_end. by eapply witness_all_snoc. }
      split; [apply NoDup_cons; split; [by apply Hfresh; left|done]|].
      split.
      * intros g. rewrite elem_of_cons, Hhist. split.
        -- intros [->|(j & Hj & Hpj)].
           { exists i0. split; [done|]. by apply list_lookup_insert_eq. }
           exists j. split; [done|].
           rewrite list_lookup_insert_ne; [done|]. intros ->.
           rewrite Hp in Hpj. by injection Hpj as ->.
        -- intros (j & Hj & Hpj). destruct (decide (i0 = j)) as [->|Hne].
           { left. congruence. }
           right. exists j. by rewrite list_lookup_insert_ne in Hpj.
      * left. split; [done|]. intros j q Hq.
        destruct (decide (i0 = j)) as [->|Hne].
        { rewrite list_lookup_insert_eq in Hq by done.
          injection Hq as <-. by right. }
        rewrite list_lookup_insert_ne in Hq by done. by eapply Hothers.
    + by apply run_thread_Panicked in Hrun.
Qed.

Lemma serialized_rtc (n : N) (d : deterministic) (fs : list Digest) (σ : system) :
  (1 ≤ n)%N → NewDejaVuDeterministic n = Ok d → NoDup fs →
  rtc (step fs) (initial d fs) σ → serialized (N.to_nat n) d fs σ.
Proof.
  intros Hn Hnew Hnd Hrtc.
  pose proof (serialized_initial n d fs Hn Hnew) as Hinit.
  induction Hrtc as [|x y z Hstep _ IH]; [done|].
  apply IH. by eapply serialized_step.
Qed.

Lemma sum_list_insert_lt (l : list nat) (i x y : nat) :
  l !! i = Some x → (y < x)%nat → (sum_list (<[i := y]> l) < sum_list l)%nat.
Proof.
  revert i. induction l as [|z l IH]; intros [|i]; simpl; try done.
  - intros [= ->] ?. lia.
  - intros Hi Hlt. specialize (IH i Hi Hlt). lia.
Qed.

Lemma step_total_remaining (fs : list Digest) (σ σ' : system) :
  step fs σ σ' → (total_remaining σ' < total_remaining σ)%nat.
Proof.
  intros [σ0 i f p d' p' _ Hp Hstep]. unfold total_remaining. simpl.
  rewrite list_fmap_insert. apply (sum_list_insert_lt _ _ (remaining p)).
  - by rewrite list_lookup_fmap, Hp.
  - by eapply thread_step_remaining.
Qed.

(** Every interleaving is finite: seven statements per caller at most. *)
Lemma nsteps_bound (fs : list Digest) (k : nat) (σ σ' : system) :
  nsteps (step fs) k σ σ' → (k + total_remaining σ' ≤ total_remaining σ)%nat.
Proof.
  induction 1 as [|k x y z Hstep _ IH]; [done|].
  apply step_total_remaining in Hstep. lia.
Qed.

Lemma total_remaining_initial (d : deterministic) (fs : list Digest) :
  total_remaining (initial d fs) = (7 * length fs)%nat.
Proof.
  unfold total_remaining, initial. simpl.
  rewrite fmap_replicate, sum_list_replicate. simpl. lia.
Qed.

Lemma serialized_safe (n : nat) (dnew : deterministic) (fs : list Digest)
    (σ : system) (i : nat) (p : pc) :
  serialized n dnew fs σ → pcs σ !! i = Some p →
  p ≠ Returned true ∧ ∀ e, p ≠ Panicked e.
Proof.
  intros (hist & d0 & _ & _ & _ & _ & _ & _ & Hcase) Hp.
  assert (waiting_or_done p → p ≠ Returned true ∧ ∀ e, p ≠ Panicked e) as Hw
    by (intros [-> | ->]; done).
  destruct Hcase as [[_ Hall]|(i0 & f0 & p0 & _ & Hp0 & Hfl & Hothers)].
  - by eapply Hw, Hall.
  - destruct (decide (i = i0)) as [->|Hne]; [|by eapply Hw, Hothers].
    destruct Hfl as (_ & Hcrit & _).
    assert (p0 = p) as -> by congruence. by destruct p.
Qed.

(** Mutual exclusion. *)
Lemma serialized_exclusive (n : nat) (dnew : deterministic) (fs : list Digest)
    (σ : system) (i j : nat) (p q : pc) :
  serialized n dnew fs σ → pcs σ !! i = Some p → pcs σ !! j = Some q →
  in_critical p = true → in_critical q = true → i = j.
Proof.
  intros (hist & d0 & _ & _ & _ & _ & _ & _ & Hcase) Hp Hq Hcp Hcq.
  assert (∀ r, waiting_or_done r → in_critical r = true → False) as Hw
    by (intros r [-> | ->]; done).
  destruct Hcase as [[_ Hall]|(i0 & f0 & p0 & _ & _ & _ & Hothers)].
  - exfalso. by eapply Hw; [eapply Hall|].
  - destruct (decide (i = i0)) as [->|Hi];
      [|exfalso; by eapply Hw; [eapply Hothers|]].
    destruct (decide (j = i0)) as [->|Hj];
      [done|exfalso; by eapply Hw; [eapply Hothers|]].
Qed.

(** No deadlock: some caller can move until all have returned false. *)
Lemma serialized_progress (n : nat) (dnew : deterministic) (fs : list Digest)
    (σ : system) :
  serialized n dnew fs σ →
  (∃ σ', step fs σ σ') ∨ pcs σ = replicate (length fs) (Returned false).
Proof.
  intros (hist & d0 & Hlen & _ & Hidle & _ & _ & _ & Hcase).
  destruct Hcase as [[Hshared Hall]|(i0 & f0 & p0 & Hf0 & Hp0 & Hfl & _)].
  - destruct (decide (AtLock ∈ pcs σ)) as [Hin|Hout].
    + left. apply list_elem_of_lookup in Hin as [i Hi].
      destruct (lookup_lt_is_Some_2 fs i) as [f Hf].
      { rewrite <- Hlen. by eapply lookup_lt_Some. }
      eexists. eapply (step_thread fs σ i f AtLock); [done|done|].
      simpl. unfold Lock. rewrite Hshared, Hidle. done.
    + right. symmetry. apply replicate_as_Forall. split; [done|].
      apply Forall_lookup. intros i p Hp.
      destruct (Hall _ _ Hp) as [-> | ->]; [|done].
      exfalso. apply Hout. by eapply list_elem_of_lookup_2.
  - left. destruct Hfl as (_ & Hcrit & k & d1 & Hrun & _).
    destruct k as [|k]; simpl in Hrun.
    { injection Hrun as _ ->. done. }
    destruct (thread_step f0 (shared σ) p0) as [[d' p']|] eqn:Hstep; [|done].
    eexists. by eapply (step_thread fs σ i0 f0 p0).
Qed.

(** When all callers have returned, the shared instance is the one a
    sequential run of the calls, in the order of their critical sections,
    leaves behind. *)
Lemma serialized_linearized (n : nat) (dnew : deterministic) (fs : list Digest)
    (σ : system) :
  NoDup fs → serialized n dnew fs σ →
  pcs σ = replicate (length fs) (Returned false) →
  ∃ order, order ≡ₚ fs ∧
    witness_all dnew order = Ok (replicate (length fs) false, shared σ).
Proof.
  intros Hnd (hist & d0 & Hlen & _ & _ & Hseq & Hnodup & Hhist & Hcase) Hall.
  assert (hist ≡ₚ fs) as Hperm.
  { apply NoDup_Permutation; [done..|]. intros f. rewrite Hhist. split.
    - intros (i & Hi & _). by eapply list_elem_of_lookup_2.
    - intros [i Hi]%list_elem_of_lookup. exists i. split; [done|].
      rewrite Hall. apply lookup_replicate_2. by eapply lookup_lt_Some. }
  exists (reverse hist). split; [by rewrite reverse_Permutation|].
  rewrite <- Hperm, Hseq. do 2 f_equal.
  destruct Hcase as [[-> _]|(i0 & f0 & p0 & _ & Hp0 & (_ & Hcrit & _) & _)]; [done|].
  rewrite Hall in Hp0. apply lookup_replicate in Hp0 as [-> _]. done.
Qed.

(** Some interleaving runs all the callers to their return. *)
Lemma serialized_completes (n : nat) (dnew : deterministic) (fs : list Digest)
    (σ : system) :
  NoDup fs → serialized n dnew fs σ →
  ∃ k σ', nsteps (step fs) k σ σ' ∧ pcs σ' = replicate (length fs) (Returned false).
Proof.
  intros Hnd. remember (total_remaining σ) as m eqn:Hm.
  revert σ Hm. induction (lt_wf m) as [m _ IH]. intros σ -> Hser.
  destruct (serialized_progress _ _ _ _ Hser) as [[σ1 Hstep]|Hdone].
  - destruct (IH (total_remaining σ1)) with (σ := σ1) as (k & σ' & Hrun & Hfin).
    + by eapply step_total_remaining.
    + done.
    + by eapply serialized_step.
    + exists (S k), σ'. split; [by eapply nsteps_l|done].
  - exists 0%nat, σ. split; [constructor|done].
Qed.

(** The sample digests are 32 bytes long and pairwise distinct. *)
Lemma samples_wf : Forall wf_digest [zero_digest; sample1; sample2; sample3].
Proof. repeat constructor. Qed.

Lemma NoDup_samples : NoDup [sample1; sample2; sample3].
Proof.
  apply (bool_decide_unpack (NoDup [sample1; sample2; sample3])).
  vm_compute. exact I.
Defined.

Lemma reachable_after_one : reachable 2 after_one.
Proof.
  apply (reach_witness 2 (fresh 2) sample1 false after_one).
  - apply reach_new. reflexivity.
  - vm_compute. reflexivity.
Defined.

(** * The claims *)

(** C1. On an instance built with capacity at least 1, after any sequence
    of calls, [WitnessDigest f] returns true exactly when [f] is in the
    retention window (the last [n] fingerprints witnessed, which are the
    fingerprints held by the written slots of the ring buffer); whatever
    it returns, afterwards the lookup entry of [f] is the slot just
    written, that slot holds [f], and [f] is familiar to the next call. *)
Theorem C1_witness_contract (n : N) (d0 : deterministic) (calls : list Digest)
    (f : Digest) :
  (1 ≤ n)%N → NewDejaVuDeterministic n = Ok d0 →
  ∃ bs d b d',
    witness_all d0 calls = Ok (bs, d) ∧
    WitnessDigest d f = Ok (b, d') ∧
    (b = true ↔ f ∈ window (N.to_nat n) calls) ∧
    (b = true ↔ ∃ i, (i < length calls)%nat ∧ buffer d !! i = Some f) ∧
    lookup d' !! f = Some (index d) ∧
    slice_get (buffer d') (index d) = Ok f ∧
    ∃ d'', WitnessDigest d' f = Ok (true, d'').
Proof.
  intros Hn Hnew. destruct (repr_new n d0 Hn Hnew) as [Hrepr0 Hidle0].
  destruct (witness_all_repr _ calls [] d0 Hrepr0 Hidle0)
    as (d & Hall & Hrepr & Hidle).
  rewrite app_nil_r in Hrepr.
  destruct (WitnessDigest_repr _ _ d f Hrepr Hidle)
    as (d' & Hw & Hrepr' & Hidle' & Hbuf & Hlk & _).
  destruct (WitnessDigest_repr _ _ d' f Hrepr' Hidle') as (d'' & Hw' & _).
  exists (spec_results (N.to_nat n) [] calls), d,
    (bool_decide (f ∈ take (N.to_nat n) (reverse calls))), d'.
  split; [done|]. split; [done|].
  rewrite bool_decide_eq_true. split; [by rewrite elem_of_window|].
  split.
  { rewrite (window_ring _ _ d f Hrepr). by rewrite length_reverse. }
  assert (lookup d' !! f = Some (index d)) as Hf
    by (rewrite Hlk; apply lookup_insert_eq).
  split; [done|]. split.
  { by apply (repr_index_sound _ _ _ Hrepr'). }
  exists d''. rewrite Hw'. do 2 f_equal. apply bool_decide_eq_true.
  destruct (N.to_nat n) eqn:E; [lia|]. simpl. by left.
Qed.

Lemma C1_witness_contract_witness :
  (1 ≤ 2)%N ∧ NewDejaVuDeterministic 2 = Ok (fresh 2) ∧
  ∃ bs d b d',
    witness_all (fresh 2) [sample1; sample2] = Ok (bs, d) ∧
    WitnessDigest d sample1 = Ok (b, d') ∧
    (b = true ↔ sample1 ∈ window (N.to_nat 2) [sample1; sample2]) ∧
    (b = true ↔ ∃ i, (i < length [sample1; sample2])%nat ∧
                     buffer d !! i = Some sample1) ∧
    lookup d' !! sample1 = Some (index d) ∧
    slice_get (buffer d') (index d) = Ok sample1 ∧
    ∃ d'', WitnessDigest d' sample1 = Ok (true, d'').
Proof.
  split; [lia|]. split; [reflexivity|].
  apply (C1_witness_contract 2 (fresh 2) [sample1; sample2] sample1);
    [lia|reflexivity].
Defined.

(** C2, as the code has it. On a fresh instance of capacity [N], after
    pairwise distinct [D1 .. D(N+1)] (all answered false), [D1] is out of
    the window and [D2 .. D(N+1)] are in it: in that state a witness of [D1]
    returns false and a witness of any one of [D2 .. D(N+1)] returns true;
    and witnessing [D2 .. D(N+1)] in that order from that state, before
    [D1] is witnessed again, returns true each time, a witness of [D1] after
    them returning false. *)
Theorem C2_fifo_eviction (n : N) (d0 : deterministic) (D1 : Digest)
    (rest : list Digest) :
  (1 ≤ n)%N → NewDejaVuDeterministic n = Ok d0 →
  length rest = N.to_nat n → NoDup (D1 :: rest) →
  ∃ d,
    witness_all d0 (D1 :: rest) = Ok (replicate (S (length rest)) false, d) ∧
    results d [D1] = Ok [false] ∧
    (∀ Di, Di ∈ rest → results d [Di] = Ok [true]) ∧
    results d (rest ++ [D1]) = Ok (replicate (length rest) true ++ [false]).
Proof.
  intros Hn Hnew Hlen Hnd. destruct (repr_new n d0 Hn Hnew) as [Hrepr0 Hidle0].
  destruct (witness_all_repr _ (D1 :: rest) [] d0 Hrepr0 Hidle0)
    as (d & Hall & Hrepr & Hidle).
  rewrite app_nil_r, reverse_cons in Hrepr.
  rewrite spec_results_first_sight in Hall
    by (done || (intros ? _; rewrite take_nil; apply not_elem_of_nil)).
  apply NoDup_cons in Hnd as [HD1 Hrest].
  assert (N.to_nat n = length (reverse rest)) as Hrev
    by by rewrite length_reverse.
  exists d. split; [done|].
  split; [|split].
  - rewrite (results_repr _ _ _ d Hrepr Hidle). cbn [spec_results]. do 2 f_equal. apply bool_decide_eq_false.
    rewrite elem_of_take_app_length by done. by rewrite elem_of_reverse.
  - intros Di HDi. rewrite (results_repr _ _ _ d Hrepr Hidle). cbn [spec_results]. do 2 f_equal. apply bool_decide_eq_true.
    rewrite elem_of_take_app_length by done. by rewrite elem_of_reverse.
  - rewrite (results_repr _ _ _ d Hrepr Hidle).
    rewrite spec_results_app. f_equal. f_equal.
    + apply (spec_results_replay _ [] rest [D1]). simpl. lia.
    + cbn [spec_results]. do 2 f_equal. apply bool_decide_eq_false.
      rewrite elem_of_take_app_length by done.
      by rewrite elem_of_reverse.
Qed.

Lemma C2_fifo_eviction_witness :
  (1 ≤ 2)%N ∧ NewDejaVuDeterministic 2 = Ok (fresh 2) ∧
  length [sample2; sample3] = N.to_nat 2 ∧
  NoDup [sample1; sample2; sample3] ∧
  ∃ d,
    witness_all (fresh 2) [sample1; sample2; sample3]
      = Ok (replicate (S (length [sample2; sample3])) false, d) ∧
    results d [sample1] = Ok [false] ∧
    (∀ Di, Di ∈ [sample2; sample3] → results d [Di] = Ok [true]) ∧
    results d ([sample2; sample3] ++ [sample1])
      = Ok (replicate (length [sample2; sample3]) true ++ [false]).
Proof.
  split; [lia|]. split; [reflexivity|]. split; [reflexivity|].
  split; [exact NoDup_samples|].
  apply (C2_fifo_eviction 2 (fresh 2) sample1 [sample2; sample3]);
    [lia|reflexivity|reflexivity|exact NoDup_samples].
Defined.

(** C2 fails as stated: with capacity 2 and distinct [D1, D2, D3] witnessed,
    the witness of [D1] (false) overwrites the slot of [D2], so that the
    witnesses of [D2] and [D3] that follow it return false as well. *)
Lemma C2_rewitness_evicts_next :
  (d ← NewDejaVuDeterministic 2;
   results d [digest_of_byte x01; digest_of_byte x02; digest_of_byte x03;
              digest_of_byte x01; digest_of_byte x02; digest_of_byte x03])
  = Ok [false; false; false; false; false; false].
Proof. vm_compute. reflexivity. Qed.

(** C3, as the code has it. Construction with capacity 0 does not fail: it
    returns an instance whose ring buffer is empty and whose size is 0; the
    failure comes with the first witness call, which panics on the index
    expression [d.buffer[d.index]], whatever the fingerprint. *)
Theorem C3_capacity_zero_fails_on_first_call (f : Digest) :
  ∃ d, NewDejaVuDeterministic 0 = Ok d ∧ buffer d = [] ∧ size d = 0 ∧
       WitnessDigest d f = Panic IndexOutOfRange.
Proof. exists (fresh 0). by split; [|split; [|split]]. Qed.

(** C3 fails as stated: with capacity 0 the constructor returns an instance,
    and the run-time failure on the first call is what follows. *)
Lemma C3_capacity_zero_constructs :
  NewDejaVuDeterministic 0 = Ok (fresh 0) ∧
  WitnessDigest (fresh 0) zero_digest = Panic IndexOutOfRange.
Proof. split; reflexivity. Qed.

Section HashClaims.

Variable Sum256 : list byte → Digest.

(** C4. [Witness b] is [WitnessDigest (Sum256 b)]: same result and same
    state afterwards (or the same failure), from every state, and so for
    every sequence of calls. *)
Theorem C4_entry_points_agree (d : deterministic) :
  (∀ data, Witness Sum256 d data = WitnessDigest d (Sum256 data)) ∧
  (∀ datas, Witness_all Sum256 d datas = witness_all d (Sum256 <$> datas)).
Proof.
  split; [done|]. intros datas. revert d.
  induction datas as [|data datas IH]; intros d; simpl; [done|].
  unfold Witness at 1.
  destruct (WitnessDigest d (Sum256 data)) as [[b d1]| |]; simpl; [|done..].
  by rewrite IH.
Qed.

End HashClaims.

(** C5. Index soundness: in every state reachable on an instance built with
    capacity at least 1, each lookup entry [f -> i] has [buffer[i] = f];
    every call from such a state returns and leaves a state with the same
    property. *)
Theorem C5_index_soundness (n : N) (d : deterministic) :
  (1 ≤ n)%N → reachable n d →
  index_sound d ∧
  ∀ f, ∃ b d', WitnessDigest d f = Ok (b, d') ∧ index_sound d'.
Proof.
  intros Hn Hd. destruct (reachable_repr n d Hn Hd) as (hist & Hrepr & Hidle).
  split; [by eapply repr_index_sound|]. intros f.
  destruct (WitnessDigest_repr _ _ d f Hrepr Hidle) as (d' & Hw & Hrepr' & _).
  exists (bool_decide (f ∈ take (N.to_nat n) hist)), d'.
  split; [done|]. by eapply repr_index_sound.
Qed.

Lemma C5_index_soundness_witness :
  (1 ≤ 2)%N ∧ reachable 2 after_one ∧
  index_sound after_one ∧
  ∀ f, ∃ b d', WitnessDigest after_one f = Ok (b, d') ∧ index_sound d'.
Proof.
  split; [lia|]. split; [exact reachable_after_one|].
  apply (C5_index_soundness 2 after_one); [lia|exact reachable_after_one].
Defined.

(** C6, as the code has it. With capacity [N] and pairwise distinct
    [D1 .. DN], after [D1, D2, .., D(N-1), D1] the witness of [DN] (answered
    false) overwrites the slot of the first write of [D1] and evicts no
    fingerprint: [D1] stays familiar through its repeat write and [D2] is
    familiar too. [D2] leaves the window with the write after that one,
    whatever other fingerprint it carries. *)
Theorem C6_duplicate_write (n : N) (d0 : deterministic) (D1 D2 DN : Digest)
    (mid : list Digest) :
  NewDejaVuDeterministic n = Ok d0 →
  N.to_nat n = (3 + length mid)%nat → NoDup (D1 :: D2 :: mid ++ [DN]) →
  ∃ d,
    witness_all d0 (D1 :: D2 :: mid ++ [D1; DN])
      = Ok (replicate (2 + length mid) false ++ [true; false], d) ∧
    results d [D1] = Ok [true] ∧
    results d [D2] = Ok [true] ∧
    ∀ X, X ≠ D2 → ∃ b, results d [X; D2] = Ok [b; false].
Proof.
  intros Hnew Hlen Hnd.
  destruct (repr_new n d0 ltac:(lia) Hnew) as [Hrepr0 Hidle0].
  destruct (witness_all_repr _ (D1 :: D2 :: mid ++ [D1; DN]) [] d0 Hrepr0 Hidle0)
    as (d & Hall & Hrepr & Hidle).
  apply NoDup_cons in Hnd as [HD1 Hnd]. apply NoDup_cons in Hnd as [HD2 Hnd].
  apply NoDup_app in Hnd as (Hmid & HmidN & _).
  assert ((D1 ≠ D2) ∧ (D1 ∉ mid) ∧ (D1 ≠ DN)) as (H12 & H1m & H1N) by list_mem.
  assert ((D2 ∉ mid) ∧ (D2 ≠ DN)) as (H2m & H2N) by list_mem.
  assert (DN ∉ mid) as HNm by (intros Hin; apply (HmidN _ Hin); by left).
  set (w := DN :: D1 :: reverse mid ++ [D2]).
  assert (reverse (D1 :: D2 :: mid ++ [D1; DN]) ++ [] = w ++ [D1]) as Hhist.
  { rewrite app_nil_r, !reverse_cons, reverse_app. simpl.
    unfold w. by rewrite <- !app_assoc. }
  assert (N.to_nat n = length w) as Hw.
  { unfold w. simpl. rewrite length_app, length_reverse. simpl. lia. }
  rewrite Hhist in Hrepr. exists d. split; [|split; [|split]].
  - rewrite Hall. do 2 f_equal.
    change (D1 :: D2 :: mid ++ [D1; DN]) with ((D1 :: D2 :: mid) ++ [D1; DN]).
    rewrite spec_results_app. f_equal.
    + apply (spec_results_first_sight _ [] (D1 :: D2 :: mid)).
      * repeat (apply NoDup_cons; split); [list_mem..|done].
      * intros ? _. rewrite take_nil. apply not_elem_of_nil.
    + cbn [spec_results]. f_equal; [|f_equal].
      * apply bool_decide_eq_true. apply elem_of_take.
        exists (length (reverse mid ++ [D2])). split.
        -- rewrite !reverse_cons, app_nil_r, <- app_assoc.
           change (reverse mid ++ [D2; D1]) with (reverse mid ++ [D2] ++ [D1]).
           rewrite app_assoc. by apply list_lookup_middle.
        -- rewrite length_app, length_reverse. simpl. lia.
      * apply bool_decide_eq_false. intros Hin%subseteq_take.
        revert Hin. list_mem.
  - rewrite (results_repr _ _ _ d Hrepr Hidle). cbn [spec_results].
    do 2 f_equal. apply bool_decide_eq_true.
    rewrite elem_of_take_app_length by done. unfold w. list_mem.
  - rewrite (results_repr _ _ _ d Hrepr Hidle). cbn [spec_results].
    do 2 f_equal. apply bool_decide_eq_true.
    rewrite elem_of_take_app_length by done. unfold w. list_mem.
  - intros X HX. rewrite (results_repr _ _ _ d Hrepr Hidle). cbn [spec_results].
    eexists. do 3 f_equal. apply bool_decide_eq_false.
    replace (X :: w ++ [D1]) with ((X :: DN :: D1 :: reverse mid) ++ [D2; D1])
      by (unfold w; simpl; by rewrite <- app_assoc).
    rewrite elem_of_take_app_length
      by (simpl; rewrite length_reverse; lia).
    list_mem.
Qed.

Lemma C6_duplicate_write_witness :
  NewDejaVuDeterministic 3 = Ok (fresh 3) ∧
  N.to_nat 3 = (3 + length (@nil Digest))%nat ∧
  NoDup (sample1 :: sample2 :: [] ++ [sample3]) ∧
  ∃ d,
    witness_all (fresh 3) (sample1 :: sample2 :: [] ++ [sample1; sample3])
      = Ok (replicate (2 + length (@nil Digest)) false ++ [true; false], d) ∧
    results d [sample1] = Ok [true] ∧
    results d [sample2] = Ok [true] ∧
    ∀ X, X ≠ sample2 → ∃ b, results d [X; sample2] = Ok [b; false].
Proof.
  split; [reflexivity|]. split; [reflexivity|]. split; [exact NoDup_samples|].
  apply (C6_duplicate_write 3 (fresh 3) sample1 sample2 sample3 []);
    [reflexivity|reflexivity|exact NoDup_samples].
Defined.

(** C6 fails as stated: with capacity 3, after [D1, D2, D1] and then [D3],
    the witness of [D2] returns true, [D2] has not been evicted. *)
Lemma C6_second_fingerprint_survives :
  (d ← NewDejaVuDeterministic 3;
   results d [digest_of_byte x01; digest_of_byte x02; digest_of_byte x01;
              digest_of_byte x03; digest_of_byte x02])
  = Ok [false; false; true; false; true].
Proof. vm_compute. reflexivity. Qed.

(** C7. The code at the failing input. During initial fill the pruning
    branch is not to be taken; the code means to guard it with [maxed],
    which it comments "overwriting oldest entry". But
    [maxed := len(d.buffer) == d.size] holds from construction on, the
    buffer being allocated at its full length, and on the first call of a
    fresh instance (here of capacity 3) the lookup of the unwritten slot's
    zero digest yields 0, the cursor: the condition of the branch is true
    and the branch is taken. *)
Lemma C7_first_call_takes_branch :
  (d ← NewDejaVuDeterministic 3; dl ← Lock d; prune_cond dl) = Ok true.
Proof. reflexivity. Qed.

(** C8. On an instance built with capacity at least 1, every call returns
    and moves the cursor from [index] to [(index + 1) mod capacity],
    whatever the fingerprint and whatever the answer. *)
Theorem C8_cursor_advance (n : N) (d : deterministic) (f : Digest) :
  (1 ≤ n)%N → reachable n d →
  ∃ b d', WitnessDigest d f = Ok (b, d') ∧
          size d = Z.of_N n ∧ size d' = size d ∧
          index d' = (index d + 1) mod size d.
Proof.
  intros Hn Hd. destruct (reachable_repr n d Hn Hd) as (hist & Hrepr & Hidle).
  destruct (WitnessDigest_repr _ _ d f Hrepr Hidle) as (d' & Hw & Hrepr' & _).
  exists (bool_decide (f ∈ take (N.to_nat n) hist)), d'. split; [done|].
  pose proof (repr_pos _ _ _ Hrepr) as Hpos.
  rewrite (repr_size _ _ _ Hrepr'), (repr_size _ _ _ Hrepr).
  rewrite (repr_index _ _ _ Hrepr'), (repr_index _ _ _ Hrepr).
  split; [lia|]. split; [done|]. simpl.
  rewrite <- rem_succ by done. apply Z.rem_mod_nonneg; lia.
Qed.

Lemma C8_cursor_advance_witness :
  (1 ≤ 2)%N ∧ reachable 2 after_one ∧
  ∃ b d', WitnessDigest after_one sample1 = Ok (b, d') ∧
          size after_one = Z.of_N 2 ∧ size d' = size after_one ∧
          index d' = (index after_one + 1) mod size after_one.
Proof.
  split; [lia|]. split; [exact reachable_after_one|].
  apply (C8_cursor_advance 2 after_one sample1); [lia|exact reachable_after_one].
Defined.

(** C9. [N] callers, each witnessing one of [N] pairwise distinct
    fingerprints on a fresh instance of capacity [N]. Some interleaving of
    their statements runs them all to their return, and under every
    interleaving: the run is finite; no caller ever returns true or
    panics; at most one caller is inside the critical section; as long as
    some caller has not returned, some caller can move; and when none can,
    all [N] have returned false, the instance being the one a sequential
    run of the calls in some order leaves. *)
Theorem C9_concurrent_callers (n : N) (d : deterministic) (fs : list Digest) :
  (1 ≤ n)%N → NewDejaVuDeterministic n = Ok d →
  length fs = N.to_nat n → NoDup fs →
  (∃ k σ, nsteps (step fs) k (initial d fs) σ ∧
          pcs σ = replicate (N.to_nat n) (Returned false)) ∧
  ∀ k σ, nsteps (step fs) k (initial d fs) σ →
    (k ≤ 7 * N.to_nat n)%nat ∧
    (∀ i p, pcs σ !! i = Some p → p ≠ Returned true ∧ ∀ e, p ≠ Panicked e) ∧
    (∀ i j p q, pcs σ !! i = Some p → pcs σ !! j = Some q →
                in_critical p = true → in_critical q = true → i = j) ∧
    ((∃ σ', step fs σ σ') ∨ pcs σ = replicate (N.to_nat n) (Returned false)) ∧
    (pcs σ = replicate (N.to_nat n) (Returned false) →
     ∃ order, order ≡ₚ fs ∧
       witness_all d order = Ok (replicate (N.to_nat n) false, shared σ)).
Proof.
  intros Hn Hnew Hlen Hnd. rewrite <- Hlen. split.
  { by eapply serialized_completes, serialized_initial. }
  intros k σ Hsteps.
  pose proof (nsteps_bound _ _ _ _ Hsteps) as Hbound.
  rewrite total_remaining_initial in Hbound.
  apply rtc_nsteps_2 in Hsteps.
  pose proof (serialized_rtc n d fs σ Hn Hnew Hnd Hsteps) as Hser.
  split; [lia|]. split; [|split; [|split]].
  - intros i p. by eapply serialized_safe.
  - intros i j p q. by eapply serialized_exclusive.
  - by eapply serialized_progress.
  - by eapply serialized_linearized.
Qed.

Lemma C9_concurrent_callers_witness :
  (1 ≤ 3)%N ∧ NewDejaVuDeterministic 3 = Ok (fresh 3) ∧
  length sample_callers = N.to_nat 3 ∧ NoDup sample_callers ∧
  (∃ k σ, nsteps (step sample_callers) k (initial (fresh 3) sample_callers) σ ∧
          pcs σ = replicate (N.to_nat 3) (Returned false)) ∧
  ∀ k σ, nsteps (step sample_callers) k (initial (fresh 3) sample_callers) σ →
    (k ≤ 7 * N.to_nat 3)%nat ∧
    (∀ i p, pcs σ !! i = Some p → p ≠ Returned true ∧ ∀ e, p ≠ Panicked e) ∧
    (∀ i j p q, pcs σ !! i = Some p → pcs σ !! j = Some q →
                in_critical p = true → in_critical q = true → i = j) ∧
    ((∃ σ', step sample_callers σ σ') ∨
     pcs σ = replicate (N.to_nat 3) (Returned false)) ∧
    (pcs σ = replicate (N.to_nat 3) (Returned false) →
     ∃ order, order ≡ₚ sample_callers ∧
       witness_all (fresh 3) order
         = Ok (replicate (N.to_nat 3) false, shared σ)).
Proof.
  split; [lia|]. split; [reflexivity|]. split; [reflexivity|].
  split; [exact NoDup_samples|].
  apply (C9_concurrent_callers 3 (fresh 3) sample_callers);
    [lia|reflexivity|reflexivity|exact NoDup_samples].
Defined.

(** C10. On a fresh instance of capacity at least 1 every slot of the ring
    buffer holds the all-zero digest, and still the first witness of the
    all-zero digest returns false: the answer of a call is the presence of
    the key in the lookup map, in any state. *)
Theorem C10_zero_digest_unfamiliar (n : N) (d : deterministic) :
  (1 ≤ n)%N → NewDejaVuDeterministic n = Ok d →
  (∀ i, 0 ≤ i < Z.of_N n → slice_get (buffer d) i = Ok zero_digest) ∧
  (∃ d', WitnessDigest d zero_digest = Ok (false, d')) ∧
  (∀ s f b s', WitnessDigest s f = Ok (b, s') → b = map_has (lookup s) f).
Proof.
  intros Hn Hnew. destruct (repr_new n d Hn Hnew) as [Hrepr Hidle].
  split; [|split].
  - intros i Hi. apply slice_get_Ok. split; [lia|].
    apply (repr_unwritten _ _ _ Hrepr). simpl. lia.
  - destruct (WitnessDigest_repr _ _ d zero_digest Hrepr Hidle) as (d' & Hw & _).
    exists d'. rewrite Hw. do 2 f_equal.
    apply bool_decide_eq_false. rewrite take_nil. apply not_elem_of_nil.
  - intros s f b s'. unfold WitnessDigest, Lock.
    destruct (mutex s); [done|]. simpl.
    destruct (prune _) as [s1| |]; simpl; [|done..].
    destruct (write_buffer _ _) as [s2| |]; simpl; [|done..].
    destruct (advance_index _) as [s3| |]; simpl; [|done..].
    by intros [= <- _].
Qed.

Lemma C10_zero_digest_unfamiliar_witness :
  (1 ≤ 3)%N ∧ NewDejaVuDeterministic 3 = Ok (fresh 3) ∧
  (∀ i, 0 ≤ i < Z.of_N 3 → slice_get (buffer (fresh 3)) i = Ok zero_digest) ∧
  (∃ d', WitnessDigest (fresh 3) zero_digest = Ok (false, d')) ∧
  (∀ s f b s', WitnessDigest s f = Ok (b, s') → b = map_has (lookup s) f).
Proof.
  split; [lia|]. split; [reflexivity|].
  apply (C10_zero_digest_unfamiliar 3 (fresh 3)); [lia|reflexivity].
Defined.

(** * Further properties of the code *)

(** ** The shape of an instance *)

(** X1. Between calls, an instance built with limit [n] at least 1 keeps
    its size [n] and a buffer of that length, its cursor and every lookup
    value are valid slots, and the mutex is free; every call on it returns
    (no panic, no wait), having written the slot under the cursor and no
    other. *)
Theorem reachable_shape (n : N) (d : deterministic) (f : Digest) :
  (1 ≤ n)%N → reachable n d →
  size d = Z.of_N n ∧ len (buffer d) = size d ∧
  0 ≤ index d < size d ∧ mutex d = false ∧
  (∀ g i, lookup d !! g = Some i → 0 ≤ i < size d) ∧
  ∃ b d', WitnessDigest d f = Ok (b, d') ∧
          buffer d' = <[Z.to_nat (index d) := f]> (buffer d).
Proof.
  intros Hn Hd. destruct (reachable_repr n d Hn Hd) as (hist & Hrepr & Hidle).
  pose proof (repr_pos _ _ _ Hrepr) as Hpos.
  pose proof (cursor_lt _ _ _ Hrepr) as Hcur.
  rewrite (repr_size _ _ _ Hrepr), (repr_index _ _ _ Hrepr).
  split; [lia|]. split; [unfold len; rewrite (repr_len _ _ _ Hrepr); lia|].
  split; [lia|]. split; [done|]. split.
  - intros g i. rewrite (repr_lookup _ _ _ Hrepr). unfold lookup_of.
    destruct (age_of g hist) as [a|]; simpl; [|done].
    case_decide; [|done]. intros [= <-].
    pose proof (slot_of_lt (N.to_nat n) (length hist) a Hpos). lia.
  - destruct (WitnessDigest_repr _ _ d f Hrepr Hidle)
      as (d' & Hw & _ & _ & Hbuf & _).
    eexists _, d'. split; [done|]. by rewrite Nat2Z.id.
Qed.

Lemma reachable_shape_witness :
  (1 ≤ 2)%N ∧ reachable 2 after_one ∧
  size after_one = Z.of_N 2 ∧ len (buffer after_one) = size after_one ∧
  0 ≤ index after_one < size after_one ∧ mutex after_one = false ∧
  (∀ g i, lookup after_one !! g = Some i → 0 ≤ i < size after_one) ∧
  ∃ b d', WitnessDigest after_one sample2 = Ok (b, d') ∧
          buffer d' = <[Z.to_nat (index after_one) := sample2]> (buffer after_one).
Proof.
  split; [lia|]. split; [exact reachable_after_one|].
  apply (reachable_shape 2 after_one sample2); [lia|exact reachable_after_one].
Defined.

(** ** Answers over call sequences *)

(** X2. First sight: after any calls, pairwise distinct fingerprints none
    of which is in the window are all answered false, however many they
    are. *)
Theorem first_sight (n : N) (d0 : deterministic) (calls ds : list Digest) :
  (1 ≤ n)%N → NewDejaVuDeterministic n = Ok d0 →
  NoDup ds → (∀ f, f ∈ ds → f ∉ window (N.to_nat n) calls) →
  ∃ bs d, witness_all d0 calls = Ok (bs, d) ∧
          results d ds = Ok (replicate (length ds) false).
Proof.
  intros Hn Hnew Hnd Hout. destruct (repr_new n d0 Hn Hnew) as [Hrepr0 Hidle0].
  destruct (witness_all_repr _ calls [] d0 Hrepr0 Hidle0)
    as (d & Hall & Hrepr & Hidle).
  rewrite app_nil_r in Hrepr. eexists _, d. split; [done|].
  rewrite (results_repr _ _ _ d Hrepr Hidle). f_equal.
  apply spec_results_first_sight; [done|].
  intros f Hf. rewrite <- elem_of_window. by apply Hout.
Qed.

Lemma first_sight_witness :
  (1 ≤ 2)%N ∧ NewDejaVuDeterministic 2 = Ok (fresh 2) ∧
  NoDup [sample1; sample2; sample3] ∧
  (∀ f, f ∈ [sample1; sample2; sample3] → f ∉ window (N.to_nat 2) []) ∧
  ∃ bs d, witness_all (fresh 2) [] = Ok (bs, d) ∧
          results d [sample1; sample2; sample3]
            = Ok (replicate (length [sample1; sample2; sample3]) false).
Proof.
  assert (∀ f : Digest, f ∈ [sample1; sample2; sample3] →
                        f ∉ window (N.to_nat 2) []) as Hout.
  { intros f _ Hin. vm_compute in Hin. by apply elem_of_nil in Hin. }
  split; [lia|]. split; [reflexivity|]. split; [exact NoDup_samples|].
  split; [exact Hout|].
  apply (first_sight 2 (fresh 2) [] [sample1; sample2; sample3]);
    [lia|reflexivity|exact NoDup_samples|exact Hout].
Defined.

Lemma spec_results_take (n : nat) (h1 h2 calls : list Digest) :
  take n h1 = take n h2 → spec_results n h1 calls = spec_results n h2 calls.
Proof.
  revert h1 h2. induction calls as [|f calls IH]; intros h1 h2 Heq; simpl; [done|].
  rewrite Heq. f_equal. apply IH.
  destruct n as [|n]; [done|]. simpl. f_equal.
  replace n with (n `min` S n)%nat by lia.
  by rewrite <- !take_take, Heq.
Qed.

(** X3. Nothing older than the window is remembered: two instances of the
    same capacity whose last [n] witnessed fingerprints agree answer every
    further sequence of calls alike. *)
Theorem window_determines_answers (n : N) (d0 : deterministic)
    (calls1 calls2 more : list Digest) :
  (1 ≤ n)%N → NewDejaVuDeterministic n = Ok d0 →
  window (N.to_nat n) calls1 = window (N.to_nat n) calls2 →
  ∃ bs1 d1 bs2 d2,
    witness_all d0 calls1 = Ok (bs1, d1) ∧
    witness_all d0 calls2 = Ok (bs2, d2) ∧
    results d1 more = results d2 more.
Proof.
  intros Hn Hnew Hwin. destruct (repr_new n d0 Hn Hnew) as [Hrepr0 Hidle0].
  destruct (witness_all_repr _ calls1 [] d0 Hrepr0 Hidle0)
    as (d1 & Hall1 & Hrepr1 & Hidle1).
  destruct (witness_all_repr _ calls2 [] d0 Hrepr0 Hidle0)
    as (d2 & Hall2 & Hrepr2 & Hidle2).
  rewrite app_nil_r in Hrepr1, Hrepr2.
  eexists _, d1, _, d2. split; [done|]. split; [done|].
  rewrite (results_repr _ _ _ d1 Hrepr1 Hidle1).
  rewrite (results_repr _ _ _ d2 Hrepr2 Hidle2). f_equal.
  apply spec_results_take.
  rewrite !window_reverse in Hwin. by apply (inj reverse).
Qed.

Lemma window_determines_answers_witness :
  (1 ≤ 2)%N ∧ NewDejaVuDeterministic 2 = Ok (fresh 2) ∧
  window (N.to_nat 2) [sample1; sample2; sample3]
    = window (N.to_nat 2) [sample2; sample3] ∧
  ∃ bs1 d1 bs2 d2,
    witness_all (fresh 2) [sample1; sample2; sample3] = Ok (bs1, d1) ∧
    witness_all (fresh 2) [sample2; sample3] = Ok (bs2, d2) ∧
    results d1 [sample1; sample2] = results d2 [sample1; sample2].
Proof.
  split; [lia|]. split; [reflexivity|]. split; [reflexivity|].
  apply (window_determines_answers 2 (fresh 2) [sample1; sample2; sample3]
           [sample2; sample3] [sample1; sample2]); [lia|reflexivity|reflexivity].
Defined.

(** ** The lookup map *)

Lemma age_of_Some (f : Digest) (hist : list Digest) (a : nat) :
  age_of f hist = Some a ↔
  hist !! a = Some f ∧ ∀ b, (b < a)%nat → hist !! b ≠ Some f.
Proof.
  revert a. induction hist as [|g hist IH]; intros a; simpl.
  - split; [done|]. by intros [? _].
  - case_decide as E.
    + subst g. split.
      * intros [= <-]. split; [done|]. intros b Hb. lia.
      * intros [_ Hmin]. destruct a as [|a]; [done|].
        exfalso. apply (Hmin 0%nat); [lia|done].
    + destruct a as [|a].
      * split; [by destruct (age_of f hist)|]. intros [[= ->] _]. done.
      * transitivity (age_of f hist = Some a).
        { destruct (age_of f hist); simpl; split; congruence. }
        rewrite IH. split; intros [Ha Hmin]; (split; [done|]).
        -- intros [|b] Hb; simpl; [congruence|]. apply Hmin. lia.
        -- intros b Hb. apply (Hmin (S b)). lia.
Qed.

(** X4. The lookup map sends a fingerprint to the slot of its newest
    occurrence ("digest -> newest index"): after [calls], [f] has the entry
    [i] exactly when the last call that witnessed [f], at position [p], is
    among the last [n] calls and [i = p mod n]. *)
Theorem lookup_newest_index (n : N) (d0 : deterministic) (calls : list Digest)
    (f : Digest) (i : Z) :
  (1 ≤ n)%N → NewDejaVuDeterministic n = Ok d0 →
  ∃ bs d,
    witness_all d0 calls = Ok (bs, d) ∧
    (lookup d !! f = Some i ↔
     ∃ p, calls !! p = Some f ∧
          (∀ q, (p < q)%nat → calls !! q ≠ Some f) ∧
          (length calls ≤ p + N.to_nat n)%nat ∧
          i = Z.of_nat (p mod N.to_nat n)).
Proof.
  intros Hn Hnew. destruct (repr_new n d0 Hn Hnew) as [Hrepr0 Hidle0].
  destruct (witness_all_repr _ calls [] d0 Hrepr0 Hidle0)
    as (d & Hall & Hrepr & _).
  rewrite app_nil_r in Hrepr. eexists _, d. split; [done|].
  rewrite (repr_lookup _ _ _ Hrepr). unfold lookup_of, slot_of.
  rewrite length_reverse. split.
  - destruct (age_of f (reverse calls)) as [a|] eqn:Ha; simpl; [|done].
    case_decide as Hlt; [|done]. intros [= <-].
    apply age_of_Some in Ha as [Ha Hmin].
    apply reverse_lookup_Some in Ha as [Ha Hk].
    exists (length calls - S a)%nat. split; [done|]. split; [|split].
    + intros q Hq Hcq. pose proof (lookup_lt_Some _ _ _ Hcq) as Hqk.
      apply (Hmin (length calls - S q)%nat); [lia|].
      apply reverse_lookup_Some. split; [|lia].
      by replace (length calls - S (length calls - S q))%nat with q by lia.
    + lia.
    + do 2 f_equal. lia.
  - intros (p & Hp & Hlast & Hwin & ->).
    pose proof (lookup_lt_Some _ _ _ Hp) as Hpk.
    assert (age_of f (reverse calls) = Some (length calls - S p)%nat) as ->.
    { apply age_of_Some. split.
      - apply reverse_lookup_Some. split; [|lia].
        by replace (length calls - S (length calls - S p))%nat with p by lia.
      - intros b Hb [Hcb _]%reverse_lookup_Some.
        apply (Hlast (length calls - S b)%nat); [lia|done]. }
    simpl. rewrite decide_True by lia. do 3 f_equal. lia.
Qed.

Lemma lookup_newest_index_witness :
  (1 ≤ 2)%N ∧ NewDejaVuDeterministic 2 = Ok (fresh 2) ∧
  ∃ bs d,
    witness_all (fresh 2) [sample1; sample2; sample1] = Ok (bs, d) ∧
    (lookup d !! sample1 = Some 0 ↔
     ∃ p, [sample1; sample2; sample1] !! p = Some sample1 ∧
          (∀ q, (p < q)%nat → [sample1; sample2; sample1] !! q ≠ Some sample1) ∧
          (length [sample1; sample2; sample1] ≤ p + N.to_nat 2)%nat ∧
          0 = Z.of_nat (p mod N.to_nat 2)).
Proof.
  split; [lia|]. split; [reflexivity|].
  apply (lookup_newest_index 2 (fresh 2) [sample1; sample2; sample1] sample1 0);
    [lia|reflexivity].
Defined.

Lemma size_list_to_set_le (l : list Digest) :
  (base.size (list_to_set l : gset Digest) ≤ length l)%nat.
Proof.
  induction l as [|x l IH].
  { rewrite list_to_set_nil, size_empty. simpl. lia. }
  rewrite list_to_set_cons, size_union_alt, size_singleton. simpl length.
  assert (list_to_set l ∖ {[x]} ⊆ (list_to_set l : gset Digest)) as Hsub
    by (intros y [Hy _]%elem_of_difference; exact Hy).
  apply subseteq_size in Hsub. lia.
Qed.

(** X5. The lookup map never outgrows the ring: after any calls it holds at
    most [n] entries, and at most as many as calls were made. *)
Theorem lookup_size_bound (n : N) (d0 : deterministic) (calls : list Digest) :
  (1 ≤ n)%N → NewDejaVuDeterministic n = Ok d0 →
  ∃ bs d,
    witness_all d0 calls = Ok (bs, d) ∧
    (base.size (lookup d) ≤ N.to_nat n)%nat ∧ (base.size (lookup d) ≤ length calls)%nat.
Proof.
  intros Hn Hnew. destruct (repr_new n d0 Hn Hnew) as [Hrepr0 Hidle0].
  destruct (witness_all_repr _ calls [] d0 Hrepr0 Hidle0)
    as (d & Hall & Hrepr & _).
  rewrite app_nil_r in Hrepr. eexists _, d. split; [done|].
  assert (base.size (lookup d) ≤ length (take (N.to_nat n) (reverse calls)))%nat as Hle.
  { rewrite <- size_dom.
    etransitivity; [|apply size_list_to_set_le].
    apply subseteq_size. intros f Hf.
    apply elem_of_dom in Hf. rewrite (repr_lookup _ _ _ Hrepr) in Hf.
    apply elem_of_list_to_set. by apply lookup_of_is_Some. }
  rewrite length_take, length_reverse in Hle. lia.
Qed.

Lemma lookup_size_bound_witness :
  (1 ≤ 2)%N ∧ NewDejaVuDeterministic 2 = Ok (fresh 2) ∧
  ∃ bs d,
    witness_all (fresh 2) [sample1; sample2; sample3] = Ok (bs, d) ∧
    (base.size (lookup d) ≤ N.to_nat 2)%nat ∧
    (base.size (lookup d) ≤ length [sample1; sample2; sample3])%nat.
Proof.
  split; [lia|]. split; [reflexivity|].
  apply (lookup_size_bound 2 (fresh 2) [sample1; sample2; sample3]);
    [lia|reflexivity].
Defined.

(** ** The ring buffer *)

Lemma mod_rotate (n k j : nat) :
  (0 < n)%nat → (n ≤ k)%nat → (j < n)%nat →
  ((k - n + j) mod n)%nat
  = if decide (k mod n + j < n)%nat then (k mod n + j)%nat
    else (k mod n + j - n)%nat.
Proof.
  intros Hn Hk Hj.
  pose proof (Nat.div_mod_eq k n) as Hdiv.
  pose proof (Nat.mod_upper_bound k n ltac:(lia)) as Hc.
  assert (1 ≤ k / n)%nat as Hq by (apply Nat.div_le_lower_bound; lia).
  replace (k - n + j)%nat with ((k mod n + j) + (k / n - 1) * n)%nat by nia.
  rewrite Nat.Div0.mod_add. case_decide as Hlt.
  - by apply Nat.mod_small.
  - replace (k mod n + j)%nat with ((k mod n + j - n) + 1 * n)%nat at 1 by lia.
    rewrite Nat.Div0.mod_add. apply Nat.mod_small. lia.
Qed.

(** X6. What the ring buffer holds. While fewer than [n] calls have been
    made, the buffer is the calls in order followed by zero digests; from
    [n] calls on, read from the cursor round to the cursor it is the
    window, oldest fingerprint first. *)
Theorem ring_contents (n : N) (d0 : deterministic) (calls : list Digest) :
  (1 ≤ n)%N → NewDejaVuDeterministic n = Ok d0 →
  ∃ bs d,
    witness_all d0 calls = Ok (bs, d) ∧
    ((length calls < N.to_nat n)%nat →
     buffer d = calls ++ replicate (N.to_nat n - length calls) zero_digest) ∧
    ((N.to_nat n ≤ length calls)%nat →
     drop (Z.to_nat (index d)) (buffer d) ++ take (Z.to_nat (index d)) (buffer d)
     = window (N.to_nat n) calls).
Proof.
  intros Hn Hnew. destruct (repr_new n d0 Hn Hnew) as [Hrepr0 Hidle0].
  destruct (witness_all_repr _ calls [] d0 Hrepr0 Hidle0)
    as (d & Hall & Hrepr & _).
  rewrite app_nil_r in Hrepr. eexists _, d. split; [done|].
  pose proof (repr_len _ _ _ Hrepr) as Hlen.
  pose proof (repr_pos _ _ _ Hrepr) as Hpos.
  assert (∀ p f, calls !! p = Some f → (length calls ≤ p + N.to_nat n)%nat →
                 buffer d !! (p mod N.to_nat n)%nat = Some f) as Hslot.
  { intros p f Hp Hwin. pose proof (lookup_lt_Some _ _ _ Hp) as Hpk.
    pose proof (repr_buffer _ _ _ Hrepr (length calls - S p)%nat f) as Hb.
    rewrite length_reverse in Hb. unfold slot_of in Hb.
    replace (length calls - 1 - (length calls - S p))%nat with p in Hb by lia.
    apply Hb; [lia|]. apply reverse_lookup_Some. split; [|lia].
    by replace (length calls - S (length calls - S p))%nat with p by lia. }
  split.
  - intros Hfill. apply list_eq. intros j.
    destruct (decide (j < length calls)%nat) as [Hj|Hj].
    + destruct (lookup_lt_is_Some_2 calls j Hj) as [f Hf].
      rewrite lookup_app_l, Hf by done.
      rewrite <- (Nat.mod_small j (N.to_nat n)) by lia.
      apply Hslot; [done|lia].
    + rewrite lookup_app_r by lia.
      destruct (decide (j < N.to_nat n)%nat) as [Hjn|Hjn].
      * rewrite lookup_replicate_2 by lia.
        apply (repr_unwritten _ _ _ Hrepr). rewrite length_reverse. lia.
      * rewrite (proj1 (lookup_replicate_None _ _ _)) by lia.
        apply lookup_ge_None. lia.
  - intros Hfull. rewrite (repr_index _ _ _ Hrepr), Nat2Z.id, length_reverse.
    pose proof (Nat.mod_upper_bound (length calls) (N.to_nat n) ltac:(lia)) as Hc.
    unfold window. apply list_eq. intros j. rewrite lookup_drop.
    destruct (decide (j < N.to_nat n)%nat) as [Hj|Hj].
    + destruct (lookup_lt_is_Some_2 calls (length calls - N.to_nat n + j))
        as [f Hf]; [lia|].
      rewrite Hf. rewrite <- (Hslot _ f Hf) by lia.
      rewrite mod_rotate by lia. case_decide as Hlt.
      * rewrite lookup_app_l by (rewrite length_drop; lia).
        by rewrite lookup_drop.
      * rewrite lookup_app_r by (rewrite length_drop; lia).
        rewrite length_drop, lookup_take_lt by lia. f_equal. lia.
    + rewrite (lookup_ge_None_2 calls) by lia.
      apply lookup_ge_None.
      rewrite length_app, length_drop, length_take. lia.
Qed.

Lemma ring_contents_witness :
  (1 ≤ 2)%N ∧ NewDejaVuDeterministic 2 = Ok (fresh 2) ∧
  ∃ bs d,
    witness_all (fresh 2) [sample1; sample2; sample3] = Ok (bs, d) ∧
    ((length [sample1; sample2; sample3] < N.to_nat 2)%nat →
     buffer d = [sample1; sample2; sample3]
                ++ replicate (N.to_nat 2 - length [sample1; sample2; sample3])
                     zero_digest) ∧
    ((N.to_nat 2 ≤ length [sample1; sample2; sample3])%nat →
     drop (Z.to_nat (index d)) (buffer d) ++ take (Z.to_nat (index d)) (buffer d)
     = window (N.to_nat 2) [sample1; sample2; sample3]).
Proof.
  split; [lia|]. split; [reflexivity|].
  apply (ring_contents 2 (fresh 2) [sample1; sample2; sample3]);
    [lia|reflexivity].
Defined.

(** ** Repeats and small rings *)

(** X7. A repeat takes a slot: with capacity [N] at least 2, after [N]
    pairwise distinct fingerprints have filled the ring, witnessing the
    newest of them again is answered true and overwrites the oldest, which
    is then unfamiliar although only [N] distinct fingerprints were ever
    witnessed. *)
Theorem repeat_evicts_oldest (n : N) (d0 : deterministic) (D1 DN : Digest)
    (mid : list Digest) :
  NewDejaVuDeterministic n = Ok d0 →
  N.to_nat n = (2 + length mid)%nat → NoDup (D1 :: mid ++ [DN]) →
  results d0 ((D1 :: mid ++ [DN]) ++ [DN; D1])
  = Ok (replicate (N.to_nat n) false ++ [true; false]).
Proof.
  intros Hnew Hlen Hnd.
  destruct (repr_new n d0 ltac:(lia) Hnew) as [Hrepr0 Hidle0].
  rewrite (results_repr _ _ _ d0 Hrepr0 Hidle0), spec_results_app.
  f_equal. f_equal.
  - rewrite spec_results_first_sight; [|done|].
    + f_equal. simpl. rewrite length_app. simpl. lia.
    + intros ? _. rewrite take_nil. apply not_elem_of_nil.
  - rewrite app_nil_r, reverse_cons, reverse_app. cbn [spec_results].
    apply NoDup_cons in Hnd as [HD1 _].
    f_equal; [|f_equal].
    + apply bool_decide_eq_true. apply elem_of_take. exists 0%nat.
      split; [done|lia].
    + apply bool_decide_eq_false.
      change (DN :: (reverse [DN] ++ reverse mid) ++ [D1])
        with ((DN :: DN :: reverse mid) ++ [D1]).
      rewrite elem_of_take_app_length
        by (simpl; rewrite length_reverse; lia).
      revert HD1. list_mem.
Qed.

Lemma repeat_evicts_oldest_witness :
  NewDejaVuDeterministic 3 = Ok (fresh 3) ∧
  N.to_nat 3 = (2 + length [sample2])%nat ∧
  NoDup (sample1 :: [sample2] ++ [sample3]) ∧
  results (fresh 3) ((sample1 :: [sample2] ++ [sample3]) ++ [sample3; sample1])
  = Ok (replicate (N.to_nat 3) false ++ [true; false]).
Proof.
  split; [reflexivity|]. split; [reflexivity|]. split; [exact NoDup_samples|].
  apply (repeat_evicts_oldest 3 (fresh 3) sample1 sample3 [sample2]);
    [reflexivity|reflexivity|exact NoDup_samples].
Defined.

(** X8. With capacity 1 the instance remembers the previous call only: a
    fingerprint is familiar exactly when it is the one witnessed by the
    call just before. *)
Theorem capacity_one_remembers_last (d0 : deterministic) (calls : list Digest)
    (f : Digest) :
  NewDejaVuDeterministic 1 = Ok d0 →
  ∃ bs d b d',
    witness_all d0 calls = Ok (bs, d) ∧
    WitnessDigest d f = Ok (b, d') ∧
    (b = true ↔ last calls = Some f).
Proof.
  intros Hnew. destruct (repr_new 1 d0 ltac:(lia) Hnew) as [Hrepr0 Hidle0].
  destruct (witness_all_repr _ calls [] d0 Hrepr0 Hidle0)
    as (d & Hall & Hrepr & Hidle).
  rewrite app_nil_r in Hrepr.
  destruct (WitnessDigest_repr _ _ d f Hrepr Hidle) as (d' & Hw & _).
  eexists _, d, _, d'. split; [done|]. split; [done|].
  rewrite bool_decide_eq_true, <- head_reverse.
  destruct (reverse calls) as [|g hist]; simpl.
  - split; [by intros ?%elem_of_nil|done].
  - rewrite take_0, list_elem_of_singleton. split; congruence.
Qed.

Lemma capacity_one_remembers_last_witness :
  NewDejaVuDeterministic 1 = Ok (fresh 1) ∧
  ∃ bs d b d',
    witness_all (fresh 1) [sample1; sample2] = Ok (bs, d) ∧
    WitnessDigest d sample2 = Ok (b, d') ∧
    (b = true ↔ last [sample1; sample2] = Some sample2).
Proof.
  split; [reflexivity|].
  apply (capacity_one_remembers_last (fresh 1) [sample1; sample2] sample2).
  reflexivity.
Defined.

Section HashExtras.

Variable Sum256 : list byte → Digest.

(** X9. [Witness] from any state of an instance of capacity at least 1
    returns, and content witnessed right after content of the same digest,
    the same content in particular, is answered true. *)
Theorem Witness_same_digest (n : N) (d : deterministic) (a b : list byte) :
  (1 ≤ n)%N → reachable n d → Sum256 a = Sum256 b →
  ∃ r d', Witness Sum256 d a = Ok (r, d') ∧
          ∃ d'', Witness Sum256 d' b = Ok (true, d'').
Proof.
  intros Hn Hd Heq. unfold Witness. rewrite <- Heq.
  destruct (reachable_repr n d Hn Hd) as (hist & Hrepr & Hidle).
  destruct (WitnessDigest_repr _ _ d (Sum256 a) Hrepr Hidle)
    as (d' & Hw & Hrepr' & Hidle' & _).
  destruct (WitnessDigest_repr _ _ d' (Sum256 a) Hrepr' Hidle') as (d'' & Hw' & _).
  eexists _, d'. split; [done|]. exists d''. rewrite Hw'. do 2 f_equal.
  apply bool_decide_eq_true. pose proof (repr_pos _ _ _ Hrepr).
  destruct (N.to_nat n); [lia|]. simpl. by left.
Qed.

End HashExtras.

Lemma Witness_same_digest_witness :
  (1 ≤ 2)%N ∧ reachable 2 after_one ∧
  (λ _ : list byte, zero_digest) [] = (λ _ : list byte, zero_digest) [x01] ∧
  ∃ r d', Witness (λ _, zero_digest) after_one [] = Ok (r, d') ∧
          ∃ d'', Witness (λ _, zero_digest) d' [x01] = Ok (true, d'').
Proof.
  split; [lia|]. split; [exact reachable_after_one|]. split; [reflexivity|].
  apply (Witness_same_digest (λ _, zero_digest) 2 after_one [] [x01]);
    [lia|exact reachable_after_one|reflexivity].
Defined.

(** ** Concurrent callers, whatever they witness *)

Lemma reachable_call (n : N) (d : deterministic) (f : Digest) :
  (1 ≤ n)%N → reachable n d →
  mutex d = false ∧ ∃ b d', WitnessDigest d f = Ok (b, d').
Proof.
  intros Hn Hd. destruct (reachable_repr n d Hn Hd) as (hist & Hrepr & Hidle).
  split; [done|].
  destruct (WitnessDigest_repr _ _ d f Hrepr Hidle) as (d' & Hw & _). eauto.
Qed.

Lemma thread_step_waiting_or_returned (f : Digest) (d d' : deterministic)
    (p p' : pc) :
  waiting_or_returned p → thread_step f d p = Some (d', p') →
  p = AtLock ∧ mutex d = false ∧ d' = set_mutex true d ∧ p' = AtCheck.
Proof.
  intros [-> | [b ->]]; simpl; [|done]. unfold Lock.
  destruct (mutex d); simpl; [done|]. by intros [= <- <-].
Qed.

Lemma linearized_initial (n : N) (d : deterministic) (fs : list Digest) :
  NewDejaVuDeterministic n = Ok d → linearized n d fs (initial d fs).
Proof.
  intros Hnew. exists [], d. simpl.
  split; [apply length_replicate|]. split; [by apply reach_new|].
  split; [done|]. split; [constructor|]. split; [by intros e ?%elem_of_nil|].
  split; [by intros i b [? _]%lookup_replicate|].
  left. split; [done|]. intros i p [-> _]%lookup_replicate. by left.
Qed.

Lemma linearized_step (n : N) (dnew : deterministic) (fs : list Digest)
    (σ σ' : system) :
  (1 ≤ n)%N → linearized n dnew fs σ → step fs σ σ' → linearized n dnew fs σ'.
Proof.
  intros Hn Hlin Hstep.
  destruct Hstep as [σ i f p d' p' Hf Hp Hstep].
  destruct Hlin as (log & d0 & Hlen & Hreach & Hseq & Hnodup & Hlog & Hret & Hcase).
  assert (Hfresh : (∀ b, p ≠ Returned b) → i ∉ caller <$> log).
  { intros Hnot (e & -> & He)%list_elem_of_fmap.
    destruct (Hlog e He) as [_ Hpe]. rewrite Hp in Hpe.
    injection Hpe as ->. by eapply Hnot. }
  assert (Hkeep : (∀ b, p ≠ Returned b) →
    ∀ e, e ∈ log → fs !! caller e = Some (digest e) ∧
                   <[i := p']> (pcs σ) !! caller e = Some (Returned (answer e))).
  { intros Hnot e He. destruct (Hlog e He) as [Hfe Hpe]. split; [done|].
    rewrite list_lookup_insert_ne; [done|]. intros ->.
    rewrite Hp in Hpe. injection Hpe as ->. by eapply Hnot. }
  assert (Hi : (i < length (pcs σ))%nat) by by eapply lookup_lt_Some.
  destruct Hcase as [[Hshared Hall]|(i0 & f0 & p0 & Hf0 & Hp0 & Hhold & Hothers)].
  - (* the mutex is free: the caller takes it *)
    destruct (thread_step_waiting_or_returned _ _ _ _ _ (Hall _ _ Hp) Hstep)
      as (-> & _ & -> & ->).
    destruct (reachable_call n d0 f Hn Hreach) as (Hidle & b & d1 & Hw).
    exists log, d0. simpl. rewrite length_insert.
    do 4 (split; [done|]). split; [by apply Hkeep|]. split.
    + intros j c Hj. destruct (decide (i = j)) as [->|Hne].
      { by rewrite list_lookup_insert_eq in Hj. }
      rewrite list_lookup_insert_ne in Hj by done. by eapply Hret.
    + right. exists i, f, AtCheck. split; [done|].
      split; [by apply list_lookup_insert_eq|]. split.
      * split; [by rewrite Hshared|]. split; [done|].
        exists 6%nat, b, d1. split; [|done].
        apply WitnessDigest_run_thread in Hw. simpl in Hw.
        unfold Lock in Hw. rewrite Hidle in Hw. simpl in Hw.
        by rewrite Hshared.
      * intros j q Hne Hq. rewrite list_lookup_insert_ne in Hq by done.
        by eapply Hall.
  - (* the mutex is held: only its holder can move *)
    destruct Hhold as (Hmutex & Hcrit & k & b & d1 & Hrun & Hw).
    destruct (decide (i = i0)) as [->|Hne].
    2: { destruct (thread_step_waiting_or_returned _ _ _ _ _
                     (Hothers _ _ Hne Hp) Hstep) as (_ & Hfree & _).
         congruence. }
    assert (f0 = f) as -> by congruence. assert (p0 = p) as -> by congruence.
    assert (∀ c, p ≠ Returned c) as Hnot by (intros c ->; done).
    destruct k as [|k]; simpl in Hrun.
    { injection Hrun as _ ->. done. }
    rewrite Hstep in Hrun. simpl in Hrun.
    destruct (thread_step_critical _ _ _ _ _ Hcrit Hmutex Hstep)
      as [[Hcrit' Hmutex']|[[c ->]|[e ->]]].
    + exists log, d0. simpl. rewrite length_insert.
      do 4 (split; [done|]). split; [by apply Hkeep|]. split.
      * intros j c Hj. destruct (decide (i0 = j)) as [->|Hne].
        { rewrite list_lookup_insert_eq in Hj by done.
          injection Hj as ->. done. }
        rewrite list_lookup_insert_ne in Hj by done. by eapply Hret.
      * right. exists i0, f, p'. split; [done|].
        split; [by apply list_lookup_insert_eq|]. split.
        { split; [done|]. split; [done|]. by exists k, b, d1. }
        intros j q Hne Hq. rewrite list_lookup_insert_ne in Hq by done.
        by eapply Hothers.
    + apply run_thread_Returned in Hrun as [-> [= <-]].
      exists (log ++ [{| caller := i0; digest := f; answer := b |}]), d'.
      simpl. rewrite length_insert, !fmap_app. simpl.
      split; [done|]. split; [by eapply reach_witness|].
      split; [by eapply witness_all_snoc|]. split.
      { apply NoDup_app. split; [done|]. split; [|apply NoDup_singleton].
        intros j Hj ->%list_elem_of_singleton. by apply Hfresh. }
      split.
      * intros e [He| ->%list_elem_of_singleton]%elem_of_app.
        { by apply Hkeep. }
        simpl. split; [done|]. by apply list_lookup_insert_eq.
      * split.
        { intros j c Hj. apply elem_of_app.
          destruct (decide (i0 = j)) as [->|Hne]; [right; by left|].
          rewrite list_lookup_insert_ne in Hj by done. left. by eapply Hret. }
        left. split; [done|]. intros j q Hq.
        destruct (decide (i0 = j)) as [->|Hne].
        { rewrite list_lookup_insert_eq in Hq by done.
          injection Hq as <-. right. by eexists. }
        rewrite list_lookup_insert_ne in Hq by done. by eapply Hothers.
    + by apply run_thread_Panicked in Hrun.
Qed.

Lemma linearized_nsteps (n : N) (d : deterministic) (fs : list Digest)
    (k : nat) (σ : system) :
  (1 ≤ n)%N → NewDejaVuDeterministic n = Ok d →
  nsteps (step fs) k (initial d fs) σ → linearized n d fs σ.
Proof.
  intros Hn Hnew Hsteps.
  pose proof (linearized_initial n d fs Hnew) as Hinit.
  induction Hsteps as [|k x y z Hstep _ IH]; [done|].
  apply IH. by eapply linearized_step.
Qed.

Lemma linearized_no_panic (n : N) (dnew : deterministic) (fs : list Digest)
    (σ : system) (i : nat) (e : runtime_error) :
  linearized n dnew fs σ → pcs σ !! i ≠ Some (Panicked e).
Proof.
  intros (log & d0 & _ & _ & _ & _ & _ & _ & Hcase) Hp.
  assert (¬ waiting_or_returned (Panicked e)) as Hw
    by (intros [? | [? ?]]; done).
  destruct Hcase as [[_ Hall]|(i0 & f0 & p0 & _ & Hp0 & (_ & Hcrit & _) & Hothers)].
  - by eapply Hw, Hall.
  - destruct (decide (i = i0)) as [->|Hne]; [|by eapply Hw, Hothers].
    rewrite Hp in Hp0. by injection Hp0 as <-.
Qed.

Lemma linearized_progress (n : N) (dnew : deterministic) (fs : list Digest)
    (σ : system) :
  (1 ≤ n)%N → linearized n dnew fs σ →
  (∃ σ', step fs σ σ') ∨
  ∃ log, serial_order fs σ log ∧
         witness_all dnew (digest <$> log) = Ok (answer <$> log, shared σ).
Proof.
  intros Hn (log & d0 & Hlen & Hreach & Hseq & Hnodup & Hlog & Hret & Hcase).
  destruct Hcase as [[Hshared Hall]|(i0 & f0 & p0 & Hf0 & Hp0 & Hhold & _)].
  - destruct (decide (AtLock ∈ pcs σ)) as [Hin|Hout].
    + left. apply list_elem_of_lookup in Hin as [i Hi].
      destruct (lookup_lt_is_Some_2 fs i) as [f Hf].
      { rewrite <- Hlen. by eapply lookup_lt_Some. }
      destruct (reachable_call n d0 f Hn Hreach) as [Hidle _].
      eexists. eapply (step_thread fs σ i f AtLock); [done|done|].
      simpl. unfold Lock. rewrite Hshared, Hidle. done.
    + right. exists log. rewrite Hshared. split; [|done]. split; [|done].
      apply NoDup_Permutation; [done|apply NoDup_seq|]. intros i.
      rewrite elem_of_seq. split.
      * intros (e & -> & He)%list_elem_of_fmap.
        destruct (Hlog e He) as [Hfe _]. apply lookup_lt_Some in Hfe. lia.
      * intros [_ Hi]. simpl in Hi. rewrite <- Hlen in Hi.
        destruct (lookup_lt_is_Some_2 _ _ Hi) as [p Hp].
        destruct (Hall _ _ Hp) as [-> | [b ->]]; [|by eapply Hret].
        exfalso. apply Hout. by eapply list_elem_of_lookup_2.
  - left. destruct Hhold as (_ & Hcrit & k & b & d1 & Hrun & _).
    destruct k as [|k]; simpl in Hrun.
    { injection Hrun as _ ->. done. }
    destruct (thread_step f0 (shared σ) p0) as [[d' p']|] eqn:Hstep; [|done].
    eexists. by eapply (step_thread fs σ i0 f0 p0).
Qed.

(** Some interleaving runs all the callers to their return. *)
Lemma linearized_completes (n : N) (dnew : deterministic) (fs : list Digest)
    (σ : system) :
  (1 ≤ n)%N → linearized n dnew fs σ →
  ∃ k σ' log, nsteps (step fs) k σ σ' ∧ serial_order fs σ' log ∧
    witness_all dnew (digest <$> log) = Ok (answer <$> log, shared σ').
Proof.
  intros Hn. remember (total_remaining σ) as m eqn:Hm.
  revert σ Hm. induction (lt_wf m) as [m _ IH]. intros σ -> Hlin.
  destruct (linearized_progress _ _ _ _ Hn Hlin) as [[σ1 Hstep]|[log Hdone]].
  - destruct (IH (total_remaining σ1)) with (σ := σ1)
      as (k & σ' & log & Hrun & Hfin).
    + by eapply step_total_remaining.
    + done.
    + by eapply linearized_step.
    + exists (S k), σ', log. split; [by eapply nsteps_l|done].
  - exists 0%nat, σ, log. split; [constructor|done].
Qed.

(** X10. Callers witnessing any fingerprints, equal or not, on an instance
    of capacity at least 1. Some interleaving of their statements runs
    them all to their return, and under every interleaving: the run is
    finite and nobody panics; and either some caller can still move or the
    run is over, every caller has returned, and the answers and the
    instance are those of a sequential run of the calls in the order of
    their critical sections. *)
Theorem concurrent_calls_linearize (n : N) (d : deterministic)
    (fs : list Digest) :
  (1 ≤ n)%N → NewDejaVuDeterministic n = Ok d →
  (∃ k σ log, nsteps (step fs) k (initial d fs) σ ∧ serial_order fs σ log ∧
     witness_all d (digest <$> log) = Ok (answer <$> log, shared σ)) ∧
  ∀ k σ, nsteps (step fs) k (initial d fs) σ →
    (k ≤ 7 * length fs)%nat ∧
    (∀ i e, pcs σ !! i ≠ Some (Panicked e)) ∧
    ((∃ σ', step fs σ σ') ∨
     ∃ log, serial_order fs σ log ∧
            witness_all d (digest <$> log) = Ok (answer <$> log, shared σ)).
Proof.
  intros Hn Hnew. split.
  { by eapply linearized_completes, linearized_initial. }
  intros k σ Hsteps.
  pose proof (nsteps_bound _ _ _ _ Hsteps) as Hbound.
  rewrite total_remaining_initial in Hbound.
  pose proof (linearized_nsteps n d fs k σ Hn Hnew Hsteps) as Hlin.
  split; [lia|]. split.
  - intros i e. by eapply linearized_no_panic.
  - by eapply linearized_progress.
Qed.

Lemma concurrent_calls_linearize_witness :
  (1 ≤ 2)%N ∧ NewDejaVuDeterministic 2 = Ok (fresh 2) ∧
  (∃ k σ log,
     nsteps (step [sample1; sample1; sample2]) k
       (initial (fresh 2) [sample1; sample1; sample2]) σ ∧
     serial_order [sample1; sample1; sample2] σ log ∧
     witness_all (fresh 2) (digest <$> log) = Ok (answer <$> log, shared σ)) ∧
  ∀ k σ, nsteps (step [sample1; sample1; sample2]) k
           (initial (fresh 2) [sample1; sample1; sample2]) σ →
    (k ≤ 7 * length [sample1; sample1; sample2])%nat ∧
    (∀ i e, pcs σ !! i ≠ Some (Panicked e)) ∧
    ((∃ σ', step [sample1; sample1; sample2] σ σ') ∨
     ∃ log, serial_order [sample1; sample1; sample2] σ log ∧
            witness_all (fresh 2) (digest <$> log)
              = Ok (answer <$> log, shared σ)).
Proof.
  split; [lia|]. split; [reflexivity|].
  apply (concurrent_calls_linearize 2 (fresh 2) [sample1; sample1; sample2]);
    [lia|reflexivity].
Defined.

Lemma spec_results_replicate (n : nat) (hist : list Digest) (m : nat) (f : Digest) :
  (0 < n)%nat →
  spec_results n hist (replicate (S m) f)
  = bool_decide (f ∈ take n hist) :: replicate m true.
Proof.
  intros Hn. revert hist. induction m as [|m IH]; intros hist; [done|].
  change (replicate (S (S m)) f) with (f :: replicate (S m) f).
  cbn [spec_results]. rewrite IH. f_equal.
  change (replicate (S m) true) with (true :: replicate m true). f_equal.
  apply bool_decide_eq_true. destruct n; [lia|]. simpl. by left.
Qed.

(** The answers of the completed calls when all callers witness [f]: the
    first critical section answers false, the later ones true. *)
Lemma same_fingerprint_answers (n : N) (d d0 : deterministic) (m : nat)
    (f : Digest) (log : list completed) :
  (1 ≤ n)%N → NewDejaVuDeterministic n = Ok d →
  witness_all d (digest <$> log) = Ok (answer <$> log, d0) →
  (∀ e, e ∈ log → replicate m f !! caller e = Some (digest e)) →
  ∀ q e, log !! q = Some e → answer e = bool_decide (q ≠ 0%nat).
Proof.
  intros Hn Hnew Hseq Hlog q e Hq.
  destruct (repr_new n d Hn Hnew) as [Hrepr Hidle].
  destruct (witness_all_repr _ (digest <$> log) [] d Hrepr Hidle)
    as (d1 & Hall & _).
  rewrite Hseq in Hall. injection Hall as Hans _.
  assert (digest <$> log = replicate (length log) f) as Hdig.
  { symmetry. apply replicate_as_Forall. split; [by rewrite length_fmap|].
    apply Forall_fmap, Forall_forall. intros e' He'. simpl.
    pose proof (Hlog e' He') as He. by apply lookup_replicate in He as [-> _]. }
  rewrite Hdig in Hans.
  assert ((answer <$> log) !! q = Some (answer e)) as Ha
    by by rewrite list_lookup_fmap, Hq.
  destruct log as [|e0 log]; [done|]. simpl length in Hans.
  rewrite spec_results_replicate in Hans by lia.
  rewrite take_nil, bool_decide_eq_false_2 in Hans by apply not_elem_of_nil.
  rewrite Hans in Ha. destruct q as [|q]; simpl in Ha.
  - by injection Ha as <-.
  - apply lookup_replicate in Ha as [-> _].
    symmetry. by apply bool_decide_eq_true.
Qed.

(** A finished run: every caller has returned. *)
Lemma serial_order_all_returned (n : N) (d : deterministic) (fs : list Digest)
    (k : nat) (σ : system) (log : list completed) (i : nat) (p : pc) :
  (1 ≤ n)%N → NewDejaVuDeterministic n = Ok d →
  nsteps (step fs) k (initial d fs) σ → serial_order fs σ log →
  pcs σ !! i = Some p → ∃ b, p = Returned b.
Proof.
  intros Hn Hnew Hsteps [Hperm Hlog] Hp.
  destruct (linearized_nsteps n d fs k σ Hn Hnew Hsteps) as (_ & _ & Hlen & _).
  assert (i ∈ caller <$> log) as (e & -> & He)%list_elem_of_fmap.
  { rewrite Hperm, elem_of_seq. apply lookup_lt_Some in Hp. lia. }
  destruct (Hlog e He) as [_ Hpe]. rewrite Hp in Hpe. injection Hpe as ->.
  by eexists.
Qed.

(** X11. Callers that all witness the same fingerprint on an instance of
    capacity at least 1. Some interleaving runs them all to their return,
    and under every interleaving never do two of them get the answer
    false; once all have returned, one of them has got false and all the
    others true. *)
Theorem same_fingerprint_one_unfamiliar (n : N) (d : deterministic) (m : nat)
    (f : Digest) :
  (1 ≤ n)%N → NewDejaVuDeterministic n = Ok d →
  (∃ k σ, nsteps (step (replicate m f)) k (initial d (replicate m f)) σ ∧
          ∀ i p, pcs σ !! i = Some p → ∃ b, p = Returned b) ∧
  ∀ k σ, nsteps (step (replicate m f)) k (initial d (replicate m f)) σ →
    (∀ i j, pcs σ !! i = Some (Returned false) →
            pcs σ !! j = Some (Returned false) → i = j) ∧
    ((0 < m)%nat → (∀ i p, pcs σ !! i = Some p → ∃ b, p = Returned b) →
     ∃ i, pcs σ !! i = Some (Returned false) ∧
          ∀ j p, j ≠ i → pcs σ !! j = Some p → p = Returned true).
Proof.
  intros Hn Hnew. split.
  { destruct (linearized_completes n d (replicate m f) _ Hn
                (linearized_initial n d _ Hnew)) as (k & σ & log & Hrun & Hord & _).
    exists k, σ. split; [done|]. intros i p.
    by eapply serial_order_all_returned. }
  intros k σ Hsteps.
  destruct (linearized_nsteps n d _ k σ Hn Hnew Hsteps)
    as (log & d0 & Hlen & _ & Hseq & Hnodup & Hlog & Hret & _).
  pose proof (same_fingerprint_answers n d d0 m f log Hn Hnew Hseq
                (λ e He, proj1 (Hlog e He))) as Hans.
  assert (∀ i b, pcs σ !! i = Some (Returned b) →
                 ∃ q e, log !! q = Some e ∧ caller e = i ∧
                        b = bool_decide (q ≠ 0%nat)) as Hpos.
  { intros i b Hi.
    destruct (proj1 (list_elem_of_fmap _ _ _) (Hret i b Hi)) as (e & -> & He).
    apply list_elem_of_lookup in He as [q Hq]. exists q, e.
    split; [done|]. split; [done|]. rewrite <- (Hans q e Hq).
    destruct (Hlog e (list_elem_of_lookup_2 _ _ _ Hq)) as [_ Hpe].
    congruence. }
  split.
  - intros i j Hi Hj.
    destruct (Hpos i false Hi) as (qi & ei & Hqi & <- & Hbi).
    destruct (Hpos j false Hj) as (qj & ej & Hqj & <- & Hbj).
    symmetry in Hbi, Hbj.
    apply bool_decide_eq_false in Hbi, Hbj.
    assert (qi = 0%nat) as -> by (destruct qi; [done|exfalso; by apply Hbi]).
    assert (qj = 0%nat) as -> by (destruct qj; [done|exfalso; by apply Hbj]).
    congruence.
  - intros Hm Hall.
    rewrite length_replicate in Hlen.
    destruct (lookup_lt_is_Some_2 (pcs σ) 0 ltac:(lia)) as [p0 Hp0].
    destruct (Hall _ _ Hp0) as [b0 ->].
    destruct (Hpos 0%nat b0 Hp0) as (q & e & Hq & _ & _).
    destruct log as [|e0 log]; [done|].
    exists (caller e0). pose proof (Hans 0%nat e0 eq_refl) as Ha0.
    destruct (Hlog e0 ltac:(by left)) as [_ Hpe0].
    rewrite Ha0 in Hpe0. split; [done|].
    intros j p Hne Hp. destruct (Hall _ _ Hp) as [b ->].
    destruct (Hpos j b Hp) as (qj & ej & Hqj & Hcj & ->).
    destruct qj as [|qj]; [|done].
    simpl in Hqj. injection Hqj as <-. done.
Qed.

Lemma same_fingerprint_one_unfamiliar_witness :
  (1 ≤ 2)%N ∧ NewDejaVuDeterministic 2 = Ok (fresh 2) ∧
  (∃ k σ, nsteps (step (replicate 3 sample1)) k
            (initial (fresh 2) (replicate 3 sample1)) σ ∧
          ∀ i p, pcs σ !! i = Some p → ∃ b, p = Returned b) ∧
  ∀ k σ, nsteps (step (replicate 3 sample1)) k
           (initial (fresh 2) (replicate 3 sample1)) σ →
    (∀ i j, pcs σ !! i = Some (Returned false) →
            pcs σ !! j = Some (Returned false) → i = j) ∧
    ((0 < 3)%nat → (∀ i p, pcs σ !! i = Some p → ∃ b, p = Returned b) →
     ∃ i, pcs σ !! i = Some (Returned false) ∧
          ∀ j p, j ≠ i → pcs σ !! j = Some p → p = Returned true).
Proof.
  split; [lia|]. split; [reflexivity|].
  apply (same_fingerprint_one_unfamiliar 2 (fresh 2) 3 sample1);
    [lia|reflexivity].
Defined.

(** ** Capacity 0 under concurrency *)

Lemma doomed_step (fs : list Digest) (k : nat) (σ σ' : system) :
  doomed fs k σ → step fs σ σ' → doomed fs (S k) σ'.
Proof.
  intros Hd Hstep. destruct Hstep as [σ i f p d' p' Hf Hp Hstep].
  destruct Hd as [Hlen [(-> & Hshared & Hall)|(Hshared & i0 & Hi0 & Hothers)]];
    (split; [simpl; by rewrite length_insert|]); simpl; rewrite Hshared in Hstep.
  - rewrite (Hall _ _ Hp) in Hstep. injection Hstep as <- <-.
    right. split; [done|]. exists i. split.
    + left. split; [done|]. apply list_lookup_insert_eq. by eapply lookup_lt_Some.
    + intros j q Hne Hq. rewrite list_lookup_insert_ne in Hq by done.
      by eapply Hall.
  - destruct (decide (i = i0)) as [->|Hne].
    2: { rewrite (Hothers _ _ Hne Hp) in Hstep. done. }
    assert (i0 < length (pcs σ))%nat as Hlt by by eapply lookup_lt_Some.
    right.
    destruct Hi0 as [[-> Hp0]|[[-> Hp0]|[-> Hp0]]];
      rewrite Hp in Hp0; injection Hp0 as ->; simpl in Hstep.
    + unfold map_has in Hstep. simpl in Hstep. rewrite lookup_empty in Hstep.
      rewrite bool_decide_eq_false_2 in Hstep by (by intros [? ?]).
      injection Hstep as <- <-. split; [done|]. exists i0. split.
      * right. left. split; [done|]. by apply list_lookup_insert_eq.
      * intros j q Hne Hq. rewrite list_lookup_insert_ne in Hq by done.
        by eapply Hothers.
    + injection Hstep as <- <-. split; [done|]. exists i0. split.
      * right. right. split; [done|]. by apply list_lookup_insert_eq.
      * intros j q Hne Hq. rewrite list_lookup_insert_ne in Hq by done.
        by eapply Hothers.
    + done.
Qed.

Lemma doomed_nsteps (fs : list Digest) (k0 k : nat) (σ0 σ : system) :
  doomed fs k0 σ0 → nsteps (step fs) k σ0 σ → doomed fs (k0 + k) σ.
Proof.
  intros Hd Hsteps. revert k0 Hd.
  induction Hsteps as [|k x y z Hstep _ IH]; intros k0 Hd.
  - by rewrite Nat.add_0_r.
  - rewrite <- Nat.add_succ_comm. apply IH. by eapply doomed_step.
Qed.

Lemma doomed_run (d : deterministic) (fs : list Digest)
    (k : nat) (σ : system) :
  NewDejaVuDeterministic 0 = Ok d →
  nsteps (step fs) k (initial d fs) σ →
  (k ≤ 3)%nat ∧
  (∀ i b, pcs σ !! i ≠ Some (Returned b)) ∧
  (fs ≠ [] → (k < 3)%nat → ∃ σ', step fs σ σ') ∧
  (k = 3%nat →
   (∀ σ', ¬ step fs σ σ') ∧ mutex (shared σ) = true ∧
   ∃ i, pcs σ !! i = Some (Panicked IndexOutOfRange) ∧
        ∀ j q, j ≠ i → pcs σ !! j = Some q → q = AtLock).
Proof.
  intros [_ ->]%NewDejaVuDeterministic_Ok Hsteps.
  assert (doomed fs 0 (initial (fresh 0) fs)) as Hinit.
  { split; [apply length_replicate|]. left. split; [done|]. split; [done|].
    by intros i p [-> _]%lookup_replicate. }
  pose proof (doomed_nsteps fs 0 k _ σ Hinit Hsteps) as Hd. simpl in Hd.
  assert (∀ σ', step fs σ σ' → (S k ≤ 3)%nat) as Hnext.
  { intros σ' Hstep. pose proof (doomed_step _ _ _ _ Hd Hstep) as [_ Hd'].
    destruct Hd' as [(? & _)|(_ & i & [[? _]|[[? _]|[? _]]] & _)]; lia. }
  destruct Hd as [Hlen [(-> & Hshared & Hall)|(Hshared & i & Hi & Hothers)]].
  - split; [lia|]. split; [|split; [|lia]].
    + intros i b Hp. by specialize (Hall _ _ Hp).
    + intros Hfs _. destruct fs as [|f fs]; [done|].
      simpl in Hlen. destruct (lookup_lt_is_Some_2 (pcs σ) 0 ltac:(lia)) as [p Hp].
      pose proof (Hall _ _ Hp) as ->.
      eexists. eapply (step_thread (f :: fs) σ 0 f AtLock); [done|done|].
      by rewrite Hshared.
  - assert (∀ j b, pcs σ !! j ≠ Some (Returned b)) as Hnoret.
    { intros j b Hp. destruct (decide (j = i)) as [->|Hne].
      - destruct Hi as [[_ Hp0]|[[_ Hp0]|[_ Hp0]]]; congruence.
      - by specialize (Hothers _ _ Hne Hp). }
    destruct Hi as [[-> Hp0]|[[-> Hp0]|[-> Hp0]]].
    + split; [lia|]. split; [done|]. split; [|lia]. intros _ _.
      destruct (lookup_lt_is_Some_2 fs i) as [f Hf].
      { rewrite <- Hlen. by eapply lookup_lt_Some. }
      eexists. by eapply (step_thread fs σ i f AtCheck).
    + split; [lia|]. split; [done|]. split; [|lia]. intros _ _.
      destruct (lookup_lt_is_Some_2 fs i) as [f Hf].
      { rewrite <- Hlen. by eapply lookup_lt_Some. }
      eexists. eapply (step_thread fs σ i f (AtPrune false)); [done|done|].
      by rewrite Hshared.
    + split; [lia|]. split; [done|]. split; [lia|]. intros _.
      split; [|split; [by rewrite Hshared|by exists i]].
      intros σ' Hstep. specialize (Hnext σ' Hstep). lia.
Qed.

(** X12. Callers on an instance built with capacity 0, under every
    interleaving: nobody ever returns. A run has three steps, and all three
    can be taken when there is a caller: the caller that takes the mutex
    panics on [d.buffer[d.index]] without releasing it, and the others
    wait in [Lock] for ever. *)
Theorem capacity_zero_callers_stall (d : deterministic) (fs : list Digest) :
  NewDejaVuDeterministic 0 = Ok d →
  (fs ≠ [] → ∃ σ, nsteps (step fs) 3 (initial d fs) σ) ∧
  ∀ k σ, nsteps (step fs) k (initial d fs) σ →
    (k ≤ 3)%nat ∧
    (∀ i b, pcs σ !! i ≠ Some (Returned b)) ∧
    (k = 3%nat →
     (∀ σ', ¬ step fs σ σ') ∧ mutex (shared σ) = true ∧
     ∃ i, pcs σ !! i = Some (Panicked IndexOutOfRange) ∧
          ∀ j q, j ≠ i → pcs σ !! j = Some q → q = AtLock).
Proof.
  intros Hnew. split.
  - intros Hfs.
    destruct (doomed_run d fs 0 _ Hnew (nsteps_O _ _)) as (_ & _ & Hgo0 & _).
    destruct (Hgo0 Hfs ltac:(lia)) as [σ1 Hs1].
    pose proof (nsteps_once _ _ Hs1) as Hr1.
    destruct (doomed_run d fs 1 _ Hnew Hr1) as (_ & _ & Hgo1 & _).
    destruct (Hgo1 Hfs ltac:(lia)) as [σ2 Hs2].
    pose proof (nsteps_r _ _ _ _ Hr1 Hs2) as Hr2.
    destruct (doomed_run d fs 2 _ Hnew Hr2) as (_ & _ & Hgo2 & _).
    destruct (Hgo2 Hfs ltac:(lia)) as [σ3 Hs3].
    exists σ3. by eapply nsteps_r.
  - intros k σ Hsteps.
    destruct (doomed_run d fs k σ Hnew Hsteps) as (Hk & Hret & _ & Hend).
    done.
Qed.

Lemma capacity_zero_callers_stall_witness :
  NewDejaVuDeterministic 0 = Ok (fresh 0) ∧
  ([sample1; sample2] ≠ [] →
   ∃ σ, nsteps (step [sample1; sample2]) 3 (initial (fresh 0) [sample1; sample2]) σ) ∧
  ∀ k σ, nsteps (step [sample1; sample2]) k (initial (fresh 0) [sample1; sample2]) σ →
    (k ≤ 3)%nat ∧
    (∀ i b, pcs σ !! i ≠ Some (Returned b)) ∧
    (k = 3%nat →
     (∀ σ', ¬ step [sample1; sample2] σ σ') ∧ mutex (shared σ) = true ∧
     ∃ i, pcs σ !! i = Some (Panicked IndexOutOfRange) ∧
          ∀ j q, j ≠ i → pcs σ !! j = Some q → q = AtLock).
Proof.
  split; [reflexivity|].
  apply (capacity_zero_callers_stall (fresh 0) [sample1; sample2]). reflexivity.
Defined.

(** ** Index soundness from any state *)

Lemma index_sound_unreached : index_sound unreached.
Proof.
  intros f i Hf. simpl in Hf.
  apply lookup_singleton_Some in Hf as [<- <-]. reflexivity.
Defined.

Lemma WitnessDigest_preserves_sound_witness :
  len (buffer unreached) = size unreached ∧ index_sound unreached ∧
  WitnessDigest unreached sample3 = Ok (false, after_unreached) ∧
  (dl ← Lock unreached; prune_cond dl) = Ok true ∧
  lookup unreached !! sample1 = Some 0 ∧
  lookup after_unreached !! sample1 = None ∧
  lookup after_unreached !! sample3 = Some 0 ∧
  index_sound after_unreached.
Proof.
  assert (WitnessDigest unreached sample3 = Ok (false, after_unreached)) as Hw
    by (vm_compute; reflexivity).
  split; [reflexivity|]. split; [exact index_sound_unreached|].
  split; [exact Hw|]. split; [vm_compute; reflexivity|].
  split; [vm_compute; reflexivity|]. split; [vm_compute; reflexivity|].
  split; [vm_compute; reflexivity|].
  apply (WitnessDigest_preserves_sound unreached after_unreached sample3 false);
    [reflexivity|exact index_sound_unreached|exact Hw].
Defined.

(** ** Initial fill *)

(** X14. During initial fill (fewer than capacity calls made on an instance
    of capacity at least 1) no lookup entry is removed by a call: the
    pruning step leaves the instance as it is, and the call returns having
    only added, or overwritten, the entry of the fingerprint it
    witnesses. *)
Theorem initial_fill_keeps_entries (n : N) (d0 : deterministic)
    (calls : list Digest) (f : Digest) :
  (1 ≤ n)%N → NewDejaVuDeterministic n = Ok d0 →
  (length calls < N.to_nat n)%nat →
  ∃ bs d dl b d',
    witness_all d0 calls = Ok (bs, d) ∧
    Lock d = Ok dl ∧
    prune dl = Ok dl ∧
    WitnessDigest d f = Ok (b, d') ∧
    lookup d' = <[f := index d]> (lookup d).
Proof.
  intros Hn Hnew Hfill. destruct (repr_new n d0 Hn Hnew) as [Hrepr0 Hidle0].
  destruct (witness_all_repr _ calls [] d0 Hrepr0 Hidle0)
    as (d & Hall & Hrepr & Hidle).
  rewrite app_nil_r in Hrepr.
  assert (length (reverse calls) < N.to_nat n)%nat as Hk
    by by rewrite length_reverse.
  destruct (WitnessDigest_repr _ _ d f Hrepr Hidle)
    as (d' & Hw & _ & _ & _ & Hlk & Hother).
  pose proof (repr_set_mutex _ _ d true Hrepr) as Hl.
  destruct (prune_repr _ _ _ Hl) as (m & Hprune & Hm).
  eexists _, d, (set_mutex true d), _, d'.
  split; [done|]. split; [by unfold Lock; rewrite Hidle|]. split; [|split].
  - rewrite Hprune. f_equal.
    assert (m = lookup d) as ->; [|by destruct d].
    apply map_eq. intros g.
    by rewrite Hm, (repr_lookup _ _ _ Hrepr), lookup_of_initial_fill.
  - done.
  - apply map_eq. intros g. destruct (decide (g = f)) as [->|Hne].
    + by rewrite Hlk, !lookup_insert_eq.
    + rewrite lookup_insert_ne by done.
      by rewrite Hother, (repr_lookup _ _ _ Hrepr), lookup_of_initial_fill.
Qed.

Lemma initial_fill_keeps_entries_witness :
  (1 ≤ 3)%N ∧ NewDejaVuDeterministic 3 = Ok (fresh 3) ∧
  (length [sample1; sample2] < N.to_nat 3)%nat ∧
  ∃ bs d dl b d',
    witness_all (fresh 3) [sample1; sample2] = Ok (bs, d) ∧
    Lock d = Ok dl ∧
    prune dl = Ok dl ∧
    WitnessDigest d sample1 = Ok (b, d') ∧
    lookup d' = <[sample1 := index d]> (lookup d).
Proof.
  assert (length [sample1; sample2] < N.to_nat 3)%nat as Hfill
    by (vm_compute; lia).
  split; [lia|]. split; [reflexivity|]. split; [exact Hfill|].
  apply (initial_fill_keeps_entries 3 (fresh 3) [sample1; sample2] sample1);
    [lia|reflexivity|exact Hfill].
Defined.
